(** * pyscgm.extmath: randomized range finder and randomized truncated SVD

    A shallow embedding of [src/pyscgm/extmath.py].  The two functions of
    the module, [approx_range_finder] and [randomized_svd], are written
    over an interface [LinAlg] that stands for the external collaborators
    the module imports (numpy's matrix type, [scipy.linalg.qr], [lu],
    [svd], and the random generator's [randn]). *)

From Stdlib Require Import ZArith Lia String List Bool Sorted.
From Stdlib Require Import Floats.SpecFloat.
From stdpp Require Import base option list.

Local Open Scope Z_scope.

(** ** Python numbers *)

(** *** The float expression [.1 * min(M.shape)]

    Python evaluates [.1 * min(M.shape)] in binary64: the literal [.1] is
    the double [3602879701896397 * 2^-55], the integer is converted to a
    double, and the product is rounded to 53 significant bits, ties to
    even.  A finite non-negative double is kept as an integer mantissa
    and a binary exponent. *)

Record float64 := Float64 { mant : Z; expo : Z }.

Definition prec64 : Z := 53.

(** [round53 N e]: the double nearest to [N * 2^e] for [N >= 0]
    (round to nearest, ties to even; the exponent range is not reached
    by the values of this module). *)
Definition round53 (N e : Z) : float64 :=
  let bits := Z.log2 N + 1 in
  if bits <=? prec64 then Float64 N e
  else
    let s := bits - prec64 in
    let q := N / 2 ^ s in
    let r := N mod 2 ^ s in
    let half := 2 ^ (s - 1) in
    let q' := if (r <? half) || ((r =? half) && Z.even q) then q else q + 1 in
    Float64 q' (e + s).

(** [float(k)] for a non-negative Python int. *)
Definition float_of_int (k : Z) : float64 := round53 k 0.

(** The literal [.1]. *)
Definition tenth : float64 := Float64 3602879701896397 (-55).

(** [x * y] on non-negative doubles. *)
Definition fmul (x y : float64) : float64 :=
  round53 (mant x * mant y) (expo x + expo y).

(** [n < x] for a Python int [n] and a double [x]: Python compares the
    two exactly. *)
Definition int_lt_float (n : Z) (x : float64) : bool :=
  if 0 <=? expo x then n <? mant x * 2 ^ expo x
  else n * 2 ^ (- expo x) <? mant x.

(** The same values in the Standard Library's IEEE 754 model, used to
    check [round53] on samples. *)
Definition to_spec (x : float64) : spec_float :=
  binary_normalize 53 1024 (mant x) (expo x) false.

Definition spec_tenth_times (k : Z) : spec_float :=
  SFmul 53 1024 (S754_finite false 3602879701896397 (-55))
                (binary_normalize 53 1024 k 0 false).

(** *** Slices [x[:k]]

    [py_stop k n] is the number of items that the slice [[:k]] keeps of a
    sequence of length [n]: a negative [k] counts from the end, and the
    bound is clipped to the sequence. *)
Definition py_stop (k : Z) (n : nat) : nat :=
  if k <? 0 then Z.to_nat (Z.of_nat n + k)
  else Z.to_nat (Z.min k (Z.of_nat n)).

(** [range(n)] runs [Z.to_nat n] times: not at all for [n <= 0]. *)
Definition range_len (n : Z) : nat := Z.to_nat n.

(** ** The external collaborators

    Everything the module does not compute itself: numpy's matrix
    objects and their products, adjoints and slices, the three dense
    factorizations of [scipy.linalg], and the generator's [randn].

    Calls that numpy rejects with an exception return [None]: a product
    of matrices whose inner dimensions differ, and [randn] with a
    negative dimension.

    The three factorizations are functions of their argument.  In
    scipy they raise as well: [linalg.lu], [linalg.qr] and
    [linalg.svd] check their input ([check_finite=True]) and raise
    [ValueError] on an infinite or NaN entry, which the products of the
    loop can reach by overflow from finite input, and [linalg.svd]
    raises [LinAlgError] when its iteration does not converge.  Entries
    are not part of this interface, so these two failures are not
    represented: what is proved below about a call that returns is
    about runs in which the factorizations return, and nothing is
    claimed about the set of inputs on which the module raises.

    The last block of fields is not called by the module; it is the
    vocabulary in which its contract is written ([eye], [diag], the
    entries of a 1-D array of singular values and their order). *)

Module Import Interface.

Class LinAlg := {
  Mat : Type;                       (* 2-D arrays / numpy matrices *)
  Vec : Type;                       (* 1-D real arrays *)
  RGen : Type;                      (* state of a random generator *)
  shape : Mat -> nat * nat;         (* X.shape *)
  matmul : Mat -> Mat -> option Mat;   (* X * Y on matrices, np.dot(X, Y) *)
  getH : Mat -> Mat;                (* X.H *)
  getT : Mat -> Mat;                (* X.T *)
  conj : Mat -> Mat;                (* X.conj() *)
  randn : RGen -> Z -> Z -> option (Mat * RGen);   (* rgen.randn(r, c) *)
  lu : Mat -> Mat;                  (* linalg.lu(X, permute_l=True)[0] *)
  qr : Mat -> Mat;                  (* linalg.qr(X, mode='economic')[0] *)
  svd : Mat -> Mat * Vec * Mat;     (* linalg.svd(X, full_matrices=False) *)
  take_rows : Z -> Mat -> Mat;      (* X[:k, :] *)
  take_cols : Z -> Mat -> Mat;      (* X[:, :k] *)
  take_vec : Z -> Vec -> Vec;       (* s[:k] *)

  SVal : Type;                      (* a real number *)
  sv_le : SVal -> SVal -> Prop;
  sv_zero : SVal;
  entries : Vec -> list SVal;
  eye : nat -> Mat;                 (* identity matrix *)
  diag : Vec -> Mat                 (* square matrix with s on the diagonal *)
}.

End Interface.

(** [n_iter] of [randomized_svd] is an int or the string ['auto'];
    [transpose] is [True], [False] or ['auto']. *)
Inductive n_iter_arg := NIterAuto | NIter (n : Z).
Inductive transpose_arg := TransposeAuto | Transpose (b : bool).

Section Extmath.
Context {L : LinAlg}.

Definition rows (X : Mat) : nat := fst (shape X).
Definition cols (X : Mat) : nat := snd (shape X).

(** [np.asmatrix] of a 2-D array reinterprets it as a matrix without
    copying; the values are the same. *)
Definition asmatrix (X : Mat) : Mat := X.

(** One pass of the body of the [for] loop of [approx_range_finder]
    (lines 68-76), for the normalizer as resolved before the loop. *)
Definition power_iteration (A : Mat) (piter_normalizer : string) (Q : Mat)
  : option Mat :=
  if String.eqb piter_normalizer "none" then
    Q ← matmul A Q;
    matmul (getH A) Q
  else if String.eqb piter_normalizer "LU" then
    Q ← lu <$> matmul A Q;
    lu <$> matmul (getH A) Q
  else if String.eqb piter_normalizer "QR" then
    Q ← qr <$> matmul A Q;
    qr <$> matmul (getH A) Q
  else Some Q.

(** [for i in range(n): Q = body(Q)]. *)
Fixpoint for_range (n : nat) (body : Mat -> option Mat) (Q : Mat) : option Mat :=
  match n with
  | O => Some Q
  | S n' => Q ← body Q; for_range n' body Q
  end.

Definition approx_range_finder (A : Mat) (size n_iter : Z)
    (piter_normalizer : string) (rgen : RGen) : option (Mat * RGen) :=
  let A := asmatrix A in
  '(Q, rgen) ← randn rgen (Z.of_nat (cols A)) size;
  let piter_normalizer :=
    if String.eqb piter_normalizer "auto" then
      if n_iter <=? 2 then "none"%string else "LU"%string
    else piter_normalizer in
  Q ← for_range (range_len n_iter) (power_iteration A piter_normalizer) Q;
  Q ← qr <$> matmul A Q;
  Some (asmatrix Q, rgen).

Definition randomized_svd (M : Mat) (n_components n_oversamples : Z)
    (n_iter : n_iter_arg) (piter_normalizer : string)
    (transpose : transpose_arg) (rgen : RGen)
  : option (Mat * Vec * Mat * RGen) :=
  let M := asmatrix M in
  let sketch_size := n_components + n_oversamples in
  let n_iter :=
    match n_iter with
    | NIterAuto =>
        if int_lt_float n_components
             (fmul tenth (float_of_int (Z.of_nat (Nat.min (rows M) (cols M)))))
        then 7 else 4
    | NIter n => n
    end in
  let transpose :=
    match transpose with
    | TransposeAuto => (rows M <? cols M)%nat
    | Transpose b => b
    end in
  let M := if transpose then getT M else M in
  '(Q, rgen) ← approx_range_finder M sketch_size n_iter piter_normalizer rgen;
  B ← matmul (getH Q) M;
  let '(Uhat, s, V) := svd B in
  (* [del B] unbinds the name and has no other effect *)
  U ← matmul Q Uhat;
  if transpose then
    Some (getT (asmatrix (take_rows n_components V)),
          take_vec n_components s,
          conj (asmatrix (take_cols n_components U)), rgen)
  else
    Some (asmatrix (take_cols n_components U),
          take_vec n_components s,
          getH (asmatrix (take_rows n_components V)), rgen).

End Extmath.

(** ** The module over Python's objects

    The same two functions with what the definitions above leave out:
    arrays are objects that refer to buffers in memory, a random
    generator is an object whose state [randn] changes in place, and an
    omitted [rgen] argument is bound to the module-level generator
    [np.random] that the whole process shares.

    A product, a factorization and [randn] return arrays on buffers of
    their own.  [np.asmatrix], [.T], [.H], [.conj()] and the slices are
    given the most sharing numpy has for them: they return views on the
    buffer of their operand (numpy does so for [asmatrix], [.T] and
    slices always, and for [.H] and [.conj()] on real data). *)

Section Objects.
Context {L : LinAlg}.

Inductive cell := CMat (X : Mat) | CVec (s : Vec).

(** A 2-D array object: the address of its buffer and how the object
    reads it; likewise for a 1-D array. *)
Record array := Array { base : nat; view : Mat -> Mat }.
Record array1 := Array1 { base1 : nat; view1 : Vec -> Vec }.

(** The generators of the process by handle, and the buffers by
    address. *)
Record World := { generators : nat -> RGen; buffers : list cell }.

(** The handle of [np.random]. *)
Definition np_random : nat := O.

(** A computation changes the world and returns, or raises ([None]);
    what it did to the world before raising stays done. *)
Definition Py (T : Type) : Type := World -> World * option T.

Definition py_ret {T} (x : T) : Py T := fun w => (w, Some x).
Definition py_raise {T} : Py T := fun w => (w, None).
Definition py_bind {T U} (c : Py T) (f : T -> Py U) : Py U :=
  fun w => match c w with
           | (w', Some x) => f x w'
           | (w', None) => (w', None)
           end.

Notation "x <~ c ; f" := (py_bind c (fun x => f))
  (at level 20, c at level 100, f at level 200).
Notation "' p <~ c ; f" := (py_bind c (fun p => f))
  (at level 20, p pattern, c at level 100, f at level 200).

Definition read (a : array) : Py Mat := fun w =>
  (w, match buffers w !! base a with
      | Some (CMat X) => Some (view a X)
      | _ => None
      end).

Definition read1 (v : array1) : Py Vec := fun w =>
  (w, match buffers w !! base1 v with
      | Some (CVec s) => Some (view1 v s)
      | _ => None
      end).

Definition new_array (X : Mat) : Py array := fun w =>
  ({| generators := generators w; buffers := buffers w ++ [CMat X] |},
   Some (Array (length (buffers w)) id)).

Definition new_array1 (s : Vec) : Py array1 := fun w =>
  ({| generators := generators w; buffers := buffers w ++ [CVec s] |},
   Some (Array1 (length (buffers w)) id)).

Definition set_generator (h : nat) (g : RGen) : Py unit := fun w =>
  ({| generators := fun h' => if Nat.eqb h' h then g else generators w h';
      buffers := buffers w |}, Some tt).

Definition py_asmatrix (a : array) : Py array := py_ret a.
Definition py_shape (a : array) : Py (nat * nat) := X <~ read a; py_ret (shape X).
Definition py_T (a : array) : Py array :=
  py_ret (Array (base a) (fun X => getT (view a X))).
Definition py_H (a : array) : Py array :=
  py_ret (Array (base a) (fun X => getH (view a X))).
Definition py_conj (a : array) : Py array :=
  py_ret (Array (base a) (fun X => conj (view a X))).
Definition py_take_rows (k : Z) (a : array) : Py array :=
  py_ret (Array (base a) (fun X => take_rows k (view a X))).
Definition py_take_cols (k : Z) (a : array) : Py array :=
  py_ret (Array (base a) (fun X => take_cols k (view a X))).
Definition py_take_vec (k : Z) (v : array1) : Py array1 :=
  py_ret (Array1 (base1 v) (fun s => take_vec k (view1 v s))).

Definition py_matmul (a b : array) : Py array :=
  X <~ read a; Y <~ read b;
  match matmul X Y with
  | Some Z => new_array Z
  | None => py_raise
  end.

Definition py_lu (a : array) : Py array := X <~ read a; new_array (lu X).
Definition py_qr (a : array) : Py array := X <~ read a; new_array (qr X).

Definition py_svd (a : array) : Py (array * array1 * array) :=
  X <~ read a;
  let '(U, s, Vh) := svd X in
  U <~ new_array U; s <~ new_array1 s; Vh <~ new_array Vh;
  py_ret (U, s, Vh).

(** [rgen.randn(r, c)] for the generator object with handle [rgen]. *)
Definition py_randn (rgen : nat) (r c : Z) : Py array := fun w =>
  match randn (generators w rgen) r c with
  | Some (Q, g') => (_ <~ set_generator rgen g'; new_array Q) w
  | None => (w, None)
  end.

Definition power_iteration_py (A : array) (piter_normalizer : string)
    (Q : array) : Py array :=
  if String.eqb piter_normalizer "none" then
    Q <~ py_matmul A Q;
    AH <~ py_H A;
    py_matmul AH Q
  else if String.eqb piter_normalizer "LU" then
    AQ <~ py_matmul A Q;
    Q <~ py_lu AQ;
    AH <~ py_H A;
    AQ <~ py_matmul AH Q;
    py_lu AQ
  else if String.eqb piter_normalizer "QR" then
    AQ <~ py_matmul A Q;
    Q <~ py_qr AQ;
    AH <~ py_H A;
    AQ <~ py_matmul AH Q;
    py_qr AQ
  else py_ret Q.

Fixpoint for_range_py (n : nat) (body : array -> Py array) (Q : array) : Py array :=
  match n with
  | O => py_ret Q
  | S n' => Q <~ body Q; for_range_py n' body Q
  end.

(** [rgen] is [None] when the caller leaves the argument out. *)
Definition approx_range_finder_py (A : array) (size n_iter : Z)
    (piter_normalizer : string) (rgen : option nat) : Py array :=
  let rgen := default np_random rgen in
  A <~ py_asmatrix A;
  sh <~ py_shape A;
  Q <~ py_randn rgen (Z.of_nat (snd sh)) size;
  let piter_normalizer :=
    if String.eqb piter_normalizer "auto" then
      if n_iter <=? 2 then "none"%string else "LU"%string
    else piter_normalizer in
  Q <~ for_range_py (range_len n_iter) (power_iteration_py A piter_normalizer) Q;
  AQ <~ py_matmul A Q;
  Q <~ py_qr AQ;
  py_asmatrix Q.

Definition randomized_svd_py (M : array) (n_components n_oversamples : Z)
    (n_iter : n_iter_arg) (piter_normalizer : string)
    (transpose : transpose_arg) (rgen : option nat)
  : Py (array * array1 * array) :=
  let rgen := default np_random rgen in
  M <~ py_asmatrix M;
  let sketch_size := n_components + n_oversamples in
  sh <~ py_shape M;
  let n_iter :=
    match n_iter with
    | NIterAuto =>
        if int_lt_float n_components
             (fmul tenth (float_of_int (Z.of_nat (Nat.min (fst sh) (snd sh)))))
        then 7 else 4
    | NIter n => n
    end in
  let transpose :=
    match transpose with
    | TransposeAuto => (fst sh <? snd sh)%nat
    | Transpose b => b
    end in
  M <~ (if transpose then py_T M else py_ret M);
  Q <~ approx_range_finder_py M sketch_size n_iter piter_normalizer (Some rgen);
  QH <~ py_H Q;
  B <~ py_matmul QH M;
  '(Uhat, s, V) <~ py_svd B;
  (* [del B] unbinds the name; no buffer is written *)
  U <~ py_matmul Q Uhat;
  if transpose then
    V <~ py_take_rows n_components V;
    V <~ py_asmatrix V;
    V <~ py_T V;
    s <~ py_take_vec n_components s;
    U <~ py_take_cols n_components U;
    U <~ py_asmatrix U;
    U <~ py_conj U;
    py_ret (V, s, U)
  else
    U <~ py_take_cols n_components U;
    U <~ py_asmatrix U;
    s <~ py_take_vec n_components s;
    V <~ py_take_rows n_components V;
    V <~ py_asmatrix V;
    V <~ py_H V;
    py_ret (U, s, V).

(** *** What a call may do to the world *)

(** Every buffer of [w] is a buffer of [w'] with the same content: the
    buffers of [w'] are those of [w] followed by new ones. *)
Definition extends (w w' : World) : Prop := buffers w `prefix_of` buffers w'.

(** No generator other than [rgen] has changed. *)
Definition same_generators_except (rgen : nat) (w w' : World) : Prop :=
  forall h, h <> rgen -> generators w' h = generators w h.

(** The array object [a] reads as the matrix [X] in [w]. *)
Definition holds (w : World) (a : array) (X : Mat) : Prop :=
  snd (read a w) = Some X.

Definition holds1 (w : World) (v : array1) (s : Vec) : Prop :=
  snd (read1 v w) = Some s.

Definition holds3 (w : World) (t : array * array1 * array)
    (x : Mat * Vec * Mat) : Prop :=
  holds w t.1.1 x.1.1 /\ holds1 w t.1.2 x.1.2 /\ holds w t.2 x.2.

(** Run from [w], the computation [c] only adds buffers, changes no
    generator but [rgen], and does what the result [v] of the
    definitions over values says: it raises when [v] is [None], and
    otherwise returns an object related to the value of [v] by [rel]
    and leaves [rgen] in the state of [v]. *)
Definition tracks {T V} (rel : World -> T -> V -> Prop) (rgen : nat)
    (c : Py T) (w : World) (v : option (V * RGen)) : Prop :=
  extends w (fst (c w)) /\
  same_generators_except rgen w (fst (c w)) /\
  match v with
  | Some (x, g') =>
      exists t, snd (c w) = Some t /\ rel (fst (c w)) t x /\
                generators (fst (c w)) rgen = g'
  | None => snd (c w) = None
  end.

End Objects.

(** ** What the module's contract says of its results *)

Section Contract.
Context {L : LinAlg}.

(** [Q^H * Q = I]: the columns of [Q] are orthonormal. *)
Definition orthonormal_cols (Q : Mat) : Prop :=
  matmul (getH Q) Q = Some (eye (cols Q)).

(** [V * V^H = I]: the rows of [V] are orthonormal. *)
Definition orthonormal_rows (V : Mat) : Prop :=
  matmul V (getH V) = Some (eye (rows V)).

(** Singular values: each entry is at least the next, and none is
    negative. *)
Definition descending (l : list SVal) : Prop := Sorted (fun x y => sv_le y x) l.
Definition nonnegative (l : list SVal) : Prop := Forall (sv_le sv_zero) l.

(** [X * Y * Z], failing as soon as one product does. *)
Definition matmul3 (X Y Z : Mat) : option Mat :=
  XY ← matmul X Y; matmul XY Z.

(** [U * diag(s) * V^H], the matrix that a triple [(U, s, V)] stands
    for. *)
Definition reconstruct (U : Mat) (s : Vec) (V : Mat) : option Mat :=
  matmul3 U (diag s) (getH V).

(** The thin SVD of [B] cut to its first [k] singular triplets. *)
Definition truncated_svd (k : Z) (B : Mat) : option Mat :=
  let '(Uhat, s, Vh) := svd B in
  matmul3 (take_cols k Uhat) (diag (take_vec k s)) (take_rows k Vh).

End Contract.

(** ** The contracts of the external collaborators

    [ShapeLaws] is what numpy and scipy document about the shapes of
    their results; [MatrixLaws] is the matrix algebra of the same
    operations in exact arithmetic, and the defining properties of the
    economy QR factorization and of the thin SVD. *)

Class ShapeLaws (L : LinAlg) : Prop := {
  matmul_Some X Y Z :
    matmul X Y = Some Z -> cols X = rows Y /\ shape Z = (rows X, cols Y);
  matmul_is_Some X Y : cols X = rows Y -> is_Some (matmul X Y);
  getH_shape X : shape (getH X) = (cols X, rows X);
  getT_shape X : shape (getT X) = (cols X, rows X);
  conj_shape X : shape (conj X) = shape X;
  randn_Some g r c Q g' :
    randn g r c = Some (Q, g') ->
    0 <= r /\ 0 <= c /\ shape Q = (Z.to_nat r, Z.to_nat c);
  randn_is_Some g r c : 0 <= r -> 0 <= c -> is_Some (randn g r c);
  lu_shape X : shape (lu X) = (rows X, Nat.min (rows X) (cols X));
  qr_shape X : shape (qr X) = (rows X, Nat.min (rows X) (cols X));
  svd_shape X U s Vh :
    svd X = (U, s, Vh) ->
    shape U = (rows X, Nat.min (rows X) (cols X)) /\
    length (entries s) = Nat.min (rows X) (cols X) /\
    shape Vh = (Nat.min (rows X) (cols X), cols X);
  take_rows_shape k X : shape (take_rows k X) = (py_stop k (rows X), cols X);
  take_cols_shape k X : shape (take_cols k X) = (rows X, py_stop k (cols X));
  take_vec_length k s :
    length (entries (take_vec k s)) = py_stop k (length (entries s));
  eye_shape n : shape (eye n) = (n, n);
  diag_shape s : shape (diag s) = (length (entries s), length (entries s))
}.

Class MatrixLaws (L : LinAlg) : Prop := {
  matmul_assoc X Y Z XY YZ :
    matmul X Y = Some XY -> matmul Y Z = Some YZ ->
    matmul XY Z = matmul X YZ;
  matmul_eye_l X : matmul (eye (rows X)) X = Some X;
  getH_matmul X Y XY :
    matmul X Y = Some XY -> matmul (getH Y) (getH X) = Some (getH XY);
  getT_matmul X Y XY :
    matmul X Y = Some XY -> matmul (getT Y) (getT X) = Some (getT XY);
  conj_matmul X Y XY :
    matmul X Y = Some XY -> matmul (conj X) (conj Y) = Some (conj XY);
  getH_conj_getT X : getH X = conj (getT X);
  conj_getT X : conj (getT X) = getT (conj X);
  conj_conj X : conj (conj X) = X;
  getT_getT X : getT (getT X) = X;
  conj_eye n : conj (eye n) = eye n;
  getT_diag s : getT (diag s) = diag s;
  take_cols_matmul k X Y XY :
    matmul X Y = Some XY -> matmul X (take_cols k Y) = Some (take_cols k XY);
  take_rows_matmul k X Y XY :
    matmul X Y = Some XY -> matmul (take_rows k X) Y = Some (take_rows k XY);
  getH_take_cols k X : getH (take_cols k X) = take_rows k (getH X);
  getH_take_rows k X : getH (take_rows k X) = take_cols k (getH X);
  take_eye k n : take_rows k (take_cols k (eye n)) = eye (py_stop k n);
  entries_take_vec k s :
    entries (take_vec k s) = firstn (py_stop k (length (entries s))) (entries s);
  qr_orthonormal X : orthonormal_cols (qr X);
  svd_orthonormal X U s Vh :
    svd X = (U, s, Vh) -> orthonormal_cols U /\ orthonormal_rows Vh;
  svd_values X U s Vh :
    svd X = (U, s, Vh) -> descending (entries s) /\ nonnegative (entries s);
  svd_product X U s Vh :
    svd X = (U, s, Vh) -> matmul3 U (diag s) Vh = Some X
}.

(** A slice [[:k]] whose bound reaches the end of the axis keeps
    everything. *)
Class SliceLaws (L : LinAlg) : Prop := {
  take_rows_all k X : Z.of_nat (rows X) <= k -> take_rows k X = X;
  take_cols_all k X : Z.of_nat (cols X) <= k -> take_cols k X = X;
  take_vec_all k s : Z.of_nat (length (entries s)) <= k -> take_vec k s = s
}.

(** ** Two implementations of the collaborators *)

(** *** Symbolic

    A matrix is the expression that produced it: which routine was
    called on what.  Two results are equal exactly when the same calls
    were made in the same order, so this implementation shows what the
    module performs.  Shapes follow numpy's rules. *)

Module Sym.

Inductive mterm :=
  | Input (name : string) (r c : nat)
  | Randn (g : Z) (r c : nat)
  | Mul (X Y : mterm)
  | H (X : mterm)
  | T (X : mterm)
  | Conj (X : mterm)
  | Lu (X : mterm)
  | Qr (X : mterm)
  | SvdU (X : mterm)
  | SvdVh (X : mterm)
  | Rows (k : Z) (X : mterm)
  | Cols (k : Z) (X : mterm)
  | Eye (n : nat)
  | Diag (X : mterm) (ks : list Z).

(** The singular values of [X], sliced by [[:k]] for each [k] of [ks],
    last slice first. *)
Record vterm := VTerm { of_svd : mterm; slices : list Z }.

Fixpoint shape (X : mterm) : nat * nat :=
  match X with
  | Input _ r c | Randn _ r c => (r, c)
  | Mul X Y => (fst (shape X), snd (shape Y))
  | H X | T X => (snd (shape X), fst (shape X))
  | Conj X => shape X
  | Lu X | Qr X | SvdU X =>
      (fst (shape X), Nat.min (fst (shape X)) (snd (shape X)))
  | SvdVh X => (Nat.min (fst (shape X)) (snd (shape X)), snd (shape X))
  | Rows k X => (py_stop k (fst (shape X)), snd (shape X))
  | Cols k X => (fst (shape X), py_stop k (snd (shape X)))
  | Eye n => (n, n)
  | Diag X ks =>
      let n := fold_right py_stop (Nat.min (fst (shape X)) (snd (shape X))) ks in
      (n, n)
  end.

Definition vlen (v : vterm) : nat :=
  fold_right py_stop
    (Nat.min (fst (shape (of_svd v))) (snd (shape (of_svd v)))) (slices v).

Definition matmul (X Y : mterm) : option mterm :=
  if (snd (shape X) =? fst (shape Y))%nat then Some (Mul X Y) else None.

(** The generator is a counter; the matrix drawn records the state it
    was drawn from. *)
Definition randn (g r c : Z) : option (mterm * Z) :=
  if (0 <=? r) && (0 <=? c)
  then Some (Randn g (Z.to_nat r) (Z.to_nat c), g + 1)
  else None.

(** The [i]-th entry of a vector of singular values; a later entry of
    the same vector is known to be the smaller. *)
Definition sval : Type := vterm * nat.
Definition sv_le (x y : sval) : Prop := fst x = fst y /\ (snd y <= snd x)%nat.

Definition linalg : LinAlg := {|
  Mat := mterm; Vec := vterm; RGen := Z;
  Interface.shape := shape;
  Interface.matmul := matmul;
  getH := H; getT := T; conj := Conj;
  Interface.randn := randn;
  lu := Lu; qr := Qr;
  svd X := (SvdU X, VTerm X [], SvdVh X);
  take_rows := Rows; take_cols := Cols;
  take_vec k v := VTerm (of_svd v) (k :: slices v);
  SVal := sval;
  Interface.sv_le := sv_le;
  sv_zero := (VTerm (Eye 0) [], O);
  entries v := map (pair v) (seq 0 (vlen v));
  eye := Eye;
  diag v := Diag (of_svd v) (slices v)
|}.

End Sym.

(** *** Scaled partial identities

    The matrices [u * a * E], where [E] is the [m x n] matrix with ones
    on the first [r] places of the main diagonal and zeros elsewhere,
    [a] is a natural number and [u] is one of [1, i, -1, -i].  The
    family is closed under every operation of the interface, and on it
    the factorizations are exact:
    [u*a*E = E_full * (u*a*E)] is both an LU and a QR factorization,
    and [u*a*E = (u*E_full) * diag(a,..,a,0,..,0) * E_full] is a thin
    SVD. *)

Module Scaled.

Inductive phase := P1 | Pi | Pm1 | Pmi.

Definition phase_mul (u v : phase) : phase :=
  match u, v with
  | P1, w | w, P1 => w
  | Pi, Pi => Pm1 | Pi, Pm1 => Pmi | Pi, Pmi => P1
  | Pm1, Pi => Pmi | Pm1, Pm1 => P1 | Pm1, Pmi => Pi
  | Pmi, Pi => P1 | Pmi, Pm1 => Pi | Pmi, Pmi => Pm1
  end.

Definition phase_conj (u : phase) : phase :=
  match u with P1 => P1 | Pi => Pmi | Pm1 => Pm1 | Pmi => Pi end.

(** [u * a * E] of shape [(rk + xrows) x (rk + xcols)] with [rk] ones. *)
Record smat := SMat { rk : nat; xrows : nat; xcols : nat; ph : phase; mg : nat }.

(** The vector [(a, .., a, 0, .., 0)]: [vrk] times [a], then [vzeros]
    zeros. *)
Record svec := SVec { vrk : nat; vzeros : nat; vmg : nat }.

Local Open Scope nat_scope.

Definition nrows (X : smat) : nat := rk X + xrows X.
Definition ncols (X : smat) : nat := rk X + xcols X.
Definition shape (X : smat) : nat * nat := (nrows X, ncols X).

(** The full partial identity of shape [m x n] scaled by [u * a]. *)
Definition full (m n : nat) (u : phase) (a : nat) : smat :=
  SMat (Nat.min m n) (m - Nat.min m n) (n - Nat.min m n) u a.

Definition matmul (X Y : smat) : option smat :=
  if ncols X =? nrows Y then
    let r := Nat.min (rk X) (rk Y) in
    Some (SMat r (nrows X - r) (ncols Y - r)
               (phase_mul (ph X) (ph Y)) (mg X * mg Y))
  else None.

Definition getT (X : smat) : smat := SMat (rk X) (xcols X) (xrows X) (ph X) (mg X).
Definition conj (X : smat) : smat :=
  SMat (rk X) (xrows X) (xcols X) (phase_conj (ph X)) (mg X).
Definition getH (X : smat) : smat := conj (getT X).

Definition eye (n : nat) : smat := SMat n 0 0 P1 1.

(** Both [lu(X, permute_l=True)[0]] and the economy [Q] of [X]. *)
Definition unit_factor (X : smat) : smat :=
  full (nrows X) (Nat.min (nrows X) (ncols X)) P1 1.

Definition svd (X : smat) : smat * svec * smat :=
  let k := Nat.min (nrows X) (ncols X) in
  (full (nrows X) k (ph X) 1, SVec (rk X) (k - rk X) (mg X), full k (ncols X) P1 1).

Definition take_rows (k : Z) (X : smat) : smat :=
  let m := py_stop k (nrows X) in
  let r := Nat.min (rk X) m in
  SMat r (m - r) (ncols X - r) (ph X) (mg X).

Definition take_cols (k : Z) (X : smat) : smat :=
  let n := py_stop k (ncols X) in
  let r := Nat.min (rk X) n in
  SMat r (nrows X - r) (n - r) (ph X) (mg X).

Definition take_vec (k : Z) (v : svec) : svec :=
  let n := py_stop k (vrk v + vzeros v) in
  let r := Nat.min (vrk v) n in
  SVec r (n - r) (vmg v).

Definition entries (v : svec) : list Z :=
  repeat (Z.of_nat (vmg v)) (vrk v) ++ repeat 0%Z (vzeros v).

Definition diag (v : svec) : smat := SMat (vrk v) (vzeros v) (vzeros v) P1 (vmg v).

(** The generator is a linear congruential one; a draw is the full
    partial identity scaled by a real number in [1..7]. *)
Definition next (g : Z) : Z := ((1103515245 * g + 12345) mod 2 ^ 31)%Z.
Definition draw (g : Z) : nat := S (Z.to_nat (g mod 7)%Z).

Definition randn (g r c : Z) : option (smat * Z) :=
  if ((0 <=? r) && (0 <=? c))%Z
  then Some (full (Z.to_nat r) (Z.to_nat c) P1 (draw g), next g)
  else None.

(** The entries, as Gaussian integers [(re, im)], and the dense
    operations on lists of rows that the compact ones stand for. *)
Definition gauss : Type := Z * Z.

Definition gauss_of (u : phase) (a : nat) : gauss :=
  match u with
  | P1 => (Z.of_nat a, 0%Z)
  | Pi => (0%Z, Z.of_nat a)
  | Pm1 => ((- Z.of_nat a)%Z, 0%Z)
  | Pmi => (0%Z, (- Z.of_nat a)%Z)
  end.

Definition gadd (x y : gauss) : gauss := ((fst x + fst y)%Z, (snd x + snd y)%Z).
Definition gmul (x y : gauss) : gauss :=
  ((fst x * fst y - snd x * snd y)%Z, (fst x * snd y + snd x * fst y)%Z).
Definition gconj (x : gauss) : gauss := (fst x, (- snd x)%Z).

Definition entry (X : smat) (i j : nat) : gauss :=
  if (i =? j) && (i <? rk X) then gauss_of (ph X) (mg X) else (0%Z, 0%Z).

Definition dense (X : smat) : list (list gauss) :=
  map (fun i => map (entry X i) (seq 0 (ncols X))) (seq 0 (nrows X)).

Definition dense_entry (A : list (list gauss)) (i j : nat) : gauss :=
  default (0%Z, 0%Z) (row ← A !! i; row !! j).

(** [A * B] for [A] of [m x n] and [B] of [n x p]. *)
Definition dense_mul (m n p : nat) (A B : list (list gauss)) : list (list gauss) :=
  map (fun i =>
         map (fun j =>
                fold_right gadd (0%Z, 0%Z)
                  (map (fun l => gmul (dense_entry A i l) (dense_entry B l j))
                       (seq 0 n)))
             (seq 0 p))
      (seq 0 m).

(** [A^H] for [A] of [m x n]. *)
Definition dense_adjoint (m n : nat) (A : list (list gauss)) : list (list gauss) :=
  map (fun j => map (fun i => gconj (dense_entry A i j)) (seq 0 m)) (seq 0 n).

Definition linalg : LinAlg := {|
  Mat := smat; Vec := svec; RGen := Z;
  Interface.shape := shape;
  Interface.matmul := matmul;
  Interface.getH := getH; Interface.getT := getT; Interface.conj := conj;
  Interface.randn := randn;
  lu := unit_factor; qr := unit_factor;
  Interface.svd := svd;
  Interface.take_rows := take_rows; Interface.take_cols := take_cols;
  Interface.take_vec := take_vec;
  SVal := Z; sv_le := Z.le; sv_zero := 0%Z;
  Interface.entries := entries;
  Interface.eye := eye;
  Interface.diag := diag
|}.

End Scaled.


(** Worlds of the symbolic implementation: the generators in the
    states [gens], and one buffer for each matrix of [mats]. *)
Definition sym_world (gens : nat -> Z) (mats : list Sym.mterm)
  : World (L := Sym.linalg) :=
  @Build_World Sym.linalg gens (map (@CMat Sym.linalg) mats).

(** The array object that reads the whole buffer at [addr]. *)
Definition sym_array (addr : nat) : array (L := Sym.linalg) :=
  @Array Sym.linalg addr id.

(** *** Counting the calls in a symbolic result *)

Inductive routine := Product | LUFactor | QRFactor.

Definition routine_eqb (r r' : routine) : bool :=
  match r, r' with
  | Product, Product | LUFactor, LUFactor | QRFactor, QRFactor => true
  | _, _ => false
  end.

(** How many times the routine [r] was called to produce [X]. *)
Fixpoint sym_calls (r : routine) (X : Sym.mterm) : nat :=
  match X with
  | Sym.Input _ _ _ | Sym.Randn _ _ _ | Sym.Eye _ => 0
  | Sym.Mul X Y =>
      (if routine_eqb r Product then 1 else 0) + sym_calls r X + sym_calls r Y
  | Sym.Lu X => (if routine_eqb r LUFactor then 1 else 0) + sym_calls r X
  | Sym.Qr X => (if routine_eqb r QRFactor then 1 else 0) + sym_calls r X
  | Sym.H X | Sym.T X | Sym.Conj X | Sym.SvdU X | Sym.SvdVh X
  | Sym.Rows _ X | Sym.Cols _ X | Sym.Diag X _ => sym_calls r X
  end%nat.

(** The calls of one round of the loop, by normalizer: two products,
    and two factorizations when the round is normalized. *)
Definition round_calls (r : routine) (norm : string) : nat :=
  if String.eqb norm "none" then (if routine_eqb r Product then 2 else 0)
  else if String.eqb norm "LU" then
    (if routine_eqb r Product || routine_eqb r LUFactor then 2 else 0)
  else if String.eqb norm "QR" then
    (if routine_eqb r Product || routine_eqb r QRFactor then 2 else 0)
  else 0.

(** The calls after the loop: one product and one QR factorization. *)
Definition final_calls (r : routine) : nat :=
  if routine_eqb r Product || routine_eqb r QRFactor then 1 else 0.

(** *** Which buffers a result is on *)

Section Aliasing.
Context {L : LinAlg}.

Definition array_bases (a : array) : list nat := [base a].

Definition triple_bases (t : array * array1 * array) : list nat :=
  [base t.1.1; base1 t.1.2; base t.2].

(** Each of the buffers [bs] was added to a world that had at least
    [n] buffers: none of them is among the first [n]. *)
Definition created_after (n : nat) (bs : list nat) : Prop := Forall (le n) bs.

(** A computation never removes a buffer. *)
Definition grows {T} (c : Py T) : Prop :=
  forall w, (length (buffers w) <= length (buffers (fst (c w))))%nat.

(** Run from a world of at least [n] buffers, what the computation
    returns is on buffers created after the first [n]. *)
Definition fresh_out {T} (bases : T -> list nat) (n : nat) (c : Py T) : Prop :=
  forall w t, (n <= length (buffers w))%nat -> snd (c w) = Some t ->
              created_after n (bases t).

End Aliasing.

(** * Facts *)

(** ** The float guard of [n_iter='auto'] *)

Example round53_samples :
  forallb (fun k => SFeqb (to_spec (fmul tenth (float_of_int k))) (spec_tenth_times k))
          [0; 1; 2; 3; 7; 10; 30; 33; 99; 100; 1000; 4095; 65537; 123456789;
           1099511627777; 4503599627370495; 4503599627370496] = true.
Proof. vm_compute. reflexivity. Qed.

Example tenth_of_30 : fmul tenth (float_of_int 30) = Float64 6755399441055744 (-51).
Proof. vm_compute. reflexivity. Qed.

Lemma round53_small N e : 0 <= N < 2 ^ 53 -> round53 N e = Float64 N e.
Proof.
  intros [H0 H1]. unfold round53, prec64.
  assert (Z.log2 N < 53) as Hl.
  { destruct (Z.eq_dec N 0) as [->|Hn]; [reflexivity|].
    apply Z.log2_lt_pow2; lia. }
  destruct (Z.leb_spec (Z.log2 N + 1) 53); [reflexivity | lia].
Qed.

(** The rounded mantissa is within half a unit of the exact quotient. *)
Lemma round53_large N e :
  2 ^ 53 <= N ->
  exists s q, 1 <= s /\ round53 N e = Float64 q (e + s) /\
    2 ^ (s + 52) <= N < 2 ^ (s + 53) /\
    2 * (q * 2 ^ s - N) <= 2 ^ s /\ 2 * (N - q * 2 ^ s) <= 2 ^ s.
Proof.
  intros HN. assert (0 < N) as Hpos by (pose proof (Z.pow_pos_nonneg 2 53); lia).
  assert (53 <= Z.log2 N) as Hl by (apply Z.log2_le_pow2; lia).
  destruct (Z.log2_spec N Hpos) as [Hlo Hhi].
  unfold round53, prec64.
  destruct (Z.leb_spec (Z.log2 N + 1) 53); [lia|].
  set (s := Z.log2 N + 1 - 53).
  exists s. eexists. split; [lia|]. split; [reflexivity|].
  replace (s + 52) with (Z.log2 N) by lia.
  replace (s + 53) with (Z.succ (Z.log2 N)) by lia.
  split; [lia|].
  assert (0 < 2 ^ (s - 1)) as Hh by (apply Z.pow_pos_nonneg; lia).
  assert (2 ^ s = 2 * 2 ^ (s - 1)) as HP.
  { replace s with (1 + (s - 1)) at 1 by lia. rewrite Z.pow_add_r by lia. reflexivity. }
  pose proof (Z.div_mod N (2 ^ s) ltac:(lia)) as Hdm.
  pose proof (Z.mod_pos_bound N (2 ^ s) ltac:(lia)) as Hr.
  set (q := N / 2 ^ s) in *. set (r := N mod 2 ^ s) in *.
  set (h := 2 ^ (s - 1)) in *.
  destruct (Z.ltb_spec r h); simpl.
  - split; lia.
  - destruct (Z.eqb_spec r h); simpl.
    + destruct (Z.even q); split; lia.
    + split; lia.
Qed.

Lemma ten_tenths : 10 * mant tenth = 2 ^ 55 + 2.
Proof. reflexivity. Qed.

Lemma tenth_guard_exact (n k : Z) :
  0 <= k <= 2 ^ 52 ->
  int_lt_float n (fmul tenth (float_of_int k)) = (10 * n <? k).
Proof.
  intros Hk. unfold float_of_int. rewrite round53_small by lia.
  unfold fmul, tenth. cbn [mant expo].
  pose proof ten_tenths as Hc. unfold tenth in Hc. cbn [mant] in Hc.
  change (-55 + 0) with (-55).
  assert (0 < 3602879701896397) as Hc0 by reflexivity.
  assert (3602879701896397 * 2 ^ 52 < 2 ^ 104) as Hc104 by reflexivity.
  revert Hc Hc0 Hc104. generalize 3602879701896397. intros c Hc Hc0 Hc104.
  assert (2 ^ 52 = 4503599627370496) as E52 by reflexivity.
  assert (2 ^ 53 = 9007199254740992) as E53 by reflexivity.
  assert (2 ^ 55 = 36028797018963968) as E55 by reflexivity.
  assert (0 <= c * k) as Hck0 by nia.
  assert (c * k <= c * 2 ^ 52) as Hck1 by (apply Z.mul_le_mono_nonneg_l; lia).
  destruct (Z_lt_le_dec (c * k) (2 ^ 53)) as [Hs|Hb].
  - rewrite round53_small by lia. unfold int_lt_float; cbn [mant expo].
    change (0 <=? -55) with false. cbv iota. change (- -55) with 55.
    assert (k <= 2) by nia.
    destruct (Z.ltb_spec (n * 2 ^ 55) (c * k)), (Z.ltb_spec (10 * n) k); try reflexivity; nia.
  - destruct (round53_large (c * k) (-55) Hb) as (s & q & Hs1 & -> & [Hlo Hhi] & Hup & Hdn).
    assert (s <= 51) as Hs51.
    { destruct (Z_le_gt_dec s 51); [assumption|exfalso].
      assert (2 ^ 104 <= 2 ^ (s + 52)) by (apply Z.pow_le_mono_r; lia).
      lia. }
    unfold int_lt_float; cbn [mant expo].
    destruct (Z.leb_spec 0 (-55 + s)); [lia|].
    replace (- (-55 + s)) with (55 - s) by lia.
    assert (2 ^ s * 2 ^ (55 - s) = 2 ^ 55) as HPT.
    { rewrite <- Z.pow_add_r by lia. f_equal. lia. }
    assert (2 ^ (s + 52) = 2 ^ s * 2 ^ 52) as E1 by (rewrite Z.pow_add_r by lia; reflexivity).
    assert (2 ^ (s + 53) = 2 ^ s * 2 ^ 53) as E2 by (rewrite Z.pow_add_r by lia; reflexivity).
    rewrite E1 in Hlo. rewrite E2 in Hhi.
    assert (0 < 2 ^ s) as HP by (apply Z.pow_pos_nonneg; lia).
    assert (0 < 2 ^ (55 - s)) as HT by (apply Z.pow_pos_nonneg; lia).
    revert HPT Hlo Hhi Hup Hdn HP HT.
    generalize (2 ^ s) (2 ^ (55 - s)). intros P T HPT Hlo Hhi Hup Hdn HP HT.
    rewrite E52 in *. rewrite E53 in *. rewrite E55 in *.
    assert (P < 4503599627370496) as HPlt by nia.
    destruct (Z.ltb_spec (n * T) q) as [H1|H1], (Z.ltb_spec (10 * n) k) as [H2|H2];
      try reflexivity; exfalso.
    + (* the mantissa exceeds n*T although 10*n >= k *)
      assert (n * T + 1 <= q) as H3 by lia.
      assert (P * (n * T + 1) <= P * q) as H4 by (apply Z.mul_le_mono_nonneg_l; lia).
      assert (P * (n * T) = n * 36028797018963968) as H5 by (rewrite <- HPT; ring).
      assert (10 * (c * k) = k * 36028797018963968 + 2 * k) as H6 by nia.
      destruct (Z.eq_dec (10 * n) k) as [He|Hne].
      * subst k. nia.
      * assert (10 * n >= k + 1) by lia. nia.
    + (* the mantissa is at most n*T although 10*n < k *)
      assert (P * q <= P * (n * T)) as H4 by (apply Z.mul_le_mono_nonneg_l; lia).
      assert (P * (n * T) = n * 36028797018963968) as H5 by (rewrite <- HPT; ring).
      assert (10 * (c * k) = k * 36028797018963968 + 2 * k) as H6 by nia.
      nia.
Qed.

(** ** The scaled partial identities satisfy both contracts *)

Module ScaledLaws.
Import Scaled.

Local Open Scope nat_scope.

Lemma py_stop_le k n : py_stop k n <= n.
Proof. unfold py_stop. destruct (Z.ltb_spec k 0); lia. Qed.





Lemma phase_conj_conj u : phase_conj (phase_conj u) = u.
Proof. destruct u; reflexivity. Qed.



Lemma matmul_inv X Y Z :
  matmul X Y = Some Z ->
  ncols X = nrows Y /\
  Z = SMat (Nat.min (rk X) (rk Y)) (nrows X - Nat.min (rk X) (rk Y))
           (ncols Y - Nat.min (rk X) (rk Y))
           (phase_mul (ph X) (ph Y)) (mg X * mg Y).
Proof.
  unfold matmul. destruct (Nat.eqb_spec (ncols X) (nrows Y)); [|discriminate].
  intros [= <-]. split; [assumption | reflexivity].
Qed.

Lemma matmul_eq X Y :
  ncols X = nrows Y ->
  matmul X Y =
    Some (SMat (Nat.min (rk X) (rk Y)) (nrows X - Nat.min (rk X) (rk Y))
               (ncols Y - Nat.min (rk X) (rk Y))
               (phase_mul (ph X) (ph Y)) (mg X * mg Y)).
Proof. intros E. unfold matmul. rewrite E, Nat.eqb_refl. reflexivity. Qed.

Lemma smat_eq r a b u g r' a' b' u' g' :
  r = r' -> a = a' -> b = b' -> u = u' -> g = g' ->
  SMat r a b u g = SMat r' a' b' u' g'.
Proof. congruence. Qed.

Ltac smat_crush :=
  repeat match goal with
    | X : smat |- _ => destruct X
    | v : svec |- _ => destruct v
    end;
  unfold getH, conj, getT, eye, unit_factor, full, take_rows, take_cols,
    take_vec, diag, shape, nrows, ncols in *;
  cbn [rk xrows xcols ph mg vrk vzeros vmg fst snd] in *.

Lemma scaled_shape_laws : ShapeLaws linalg.
Proof.
  constructor; cbn -[Nat.min py_stop]; unfold rows, cols; cbn -[Nat.min py_stop].
  - intros X Y Z HZ. apply matmul_inv in HZ as [E ->].
    unfold shape, nrows, ncols in *; cbn [rk xrows xcols]. split; [exact E|].
    f_equal; lia.
  - intros X Y E. rewrite matmul_eq by exact E. eexists; reflexivity.
  - intros X. smat_crush. reflexivity.
  - intros X. smat_crush. reflexivity.
  - intros X. smat_crush. reflexivity.
  - intros g r c Q g'. unfold randn.
    destruct (Z.leb_spec 0 r), (Z.leb_spec 0 c); cbn; try discriminate.
    intros [= <- <-]. smat_crush. repeat split; try lia. f_equal; lia.
  - intros g r c Hr Hc. unfold randn.
    destruct (Z.leb_spec 0 r), (Z.leb_spec 0 c); cbn; try lia. eexists; reflexivity.
  - intros X. smat_crush. f_equal; lia.
  - intros X. smat_crush. f_equal; lia.
  - intros X U s Vh [= <- <- <-]. smat_crush. unfold entries; cbn [vrk vzeros vmg].
    rewrite length_app, !repeat_length. repeat split; try (f_equal; lia); lia.
  - intros k [r a b u g]. smat_crush. pose proof (py_stop_le k (r + a)). f_equal; lia.
  - intros k [r a b u g]. smat_crush. pose proof (py_stop_le k (r + b)). f_equal; lia.
  - intros k [r z a]. unfold entries, take_vec; cbn [vrk vzeros vmg].
    rewrite !length_app, !repeat_length. pose proof (py_stop_le k (r + z)). lia.
  - intros n. smat_crush. f_equal; lia.
  - intros [r z a]. smat_crush. unfold entries; cbn [vrk vzeros vmg].
    rewrite length_app, !repeat_length. reflexivity.
Qed.

Lemma firstn_repeat_app {A} (x y : A) r z n :
  firstn n (repeat x r ++ repeat y z) = repeat x (Nat.min r n) ++ repeat y (Nat.min n (r + z) - Nat.min r n).
Proof.
  revert n; induction r as [|r IH]; intros n; cbn [repeat app].
  - cbn [Nat.min]. rewrite Nat.sub_0_r. cbn [app Nat.add].
    revert n; induction z as [|z IHz]; intros [|n]; cbn; try reflexivity.
    f_equal. apply IHz.
  - destruct n as [|n]; [reflexivity|]. cbn. f_equal. apply IH.
Qed.

Lemma sorted_repeat_app (a : Z) r z :
  (0 <= a)%Z -> Sorted (fun x y => (y <= x)%Z) (repeat a r ++ repeat 0%Z z).
Proof.
  intros Ha. induction r as [|r IH]; cbn [repeat app].
  - induction z as [|z IHz]; cbn; constructor; [assumption|].
    destruct z; cbn; constructor; lia.
  - constructor; [assumption|].
    destruct r; cbn; [destruct z; cbn|]; constructor; lia.
Qed.

Ltac matmul_step H := apply matmul_inv in H as [? ->].

Ltac phases :=
  try reflexivity;
  repeat match goal with u : phase |- _ => destruct u end; reflexivity.

Lemma scaled_matrix_laws : MatrixLaws linalg.
Proof.
  constructor; unfold orthonormal_cols, orthonormal_rows, matmul3, descending, nonnegative;
    cbn -[Nat.min py_stop]; unfold rows, cols; cbn -[Nat.min py_stop].
  - (* associativity *)
    intros X Y Z XY YZ H1 H2. matmul_step H1. matmul_step H2.
    rewrite !matmul_eq by (smat_crush; lia). f_equal.
    smat_crush. apply smat_eq; try lia; phases.
  - (* identity on the left *)
    intros [r a b u g]. rewrite matmul_eq by (smat_crush; lia). f_equal.
    smat_crush. apply smat_eq; try lia; phases.
  - (* adjoint of a product *)
    intros X Y XY H. matmul_step H.
    rewrite matmul_eq by (smat_crush; lia). f_equal.
    smat_crush. apply smat_eq; try lia; phases.
  - (* transpose of a product *)
    intros X Y XY H. matmul_step H.
    rewrite matmul_eq by (smat_crush; lia). f_equal.
    smat_crush. apply smat_eq; try lia; phases.
  - (* conjugate of a product *)
    intros X Y XY H. matmul_step H.
    rewrite matmul_eq by (smat_crush; lia). f_equal.
    smat_crush. apply smat_eq; try lia; phases.
  - reflexivity.
  - reflexivity.
  - intros [r a b u g]. smat_crush. f_equal. apply phase_conj_conj.
  - intros [r a b u g]. reflexivity.
  - reflexivity.
  - reflexivity.
  - (* columns of a product *)
    intros k X Y XY H. matmul_step H.
    rewrite matmul_eq by (smat_crush; lia). f_equal.
    destruct X as [r a b u g], Y as [r' a' b' u' g'].
    pose proof (py_stop_le k (r' + b')). smat_crush. apply smat_eq; try lia; try phases.
    + replace (Nat.min r r' + (r' + b' - Nat.min r r')) with (r' + b') by lia. lia.
    + replace (Nat.min r r' + (r' + b' - Nat.min r r')) with (r' + b') by lia. lia.
    + replace (Nat.min r r' + (r' + b' - Nat.min r r')) with (r' + b') by lia. lia.
  - (* rows of a product *)
    intros k X Y XY H. matmul_step H.
    destruct X as [r a b u g], Y as [r' a' b' u' g'].
    pose proof (py_stop_le k (r + a)).
    rewrite matmul_eq by (smat_crush; lia). f_equal.
    smat_crush. apply smat_eq; try lia; try phases.
    + replace (Nat.min r r' + (r + a - Nat.min r r')) with (r + a) by lia. lia.
    + replace (Nat.min r r' + (r + a - Nat.min r r')) with (r + a) by lia. lia.
    + replace (Nat.min r r' + (r + a - Nat.min r r')) with (r + a) by lia. lia.
  - intros k [r a b u g]. reflexivity.
  - intros k [r a b u g]. reflexivity.
  - intros k n. pose proof (py_stop_le k n). smat_crush.
    rewrite Nat.add_0_r.
    replace (Nat.min n (py_stop k n)) with (py_stop k n) by lia.
    replace (py_stop k n + (n - py_stop k n)) with n by lia.
    apply smat_eq; try lia; phases.
  - (* entries of a slice *)
    intros k [r z a]. unfold entries, take_vec; cbn [vrk vzeros vmg].
    rewrite length_app, !repeat_length, firstn_repeat_app.
    pose proof (py_stop_le k (r + z)). repeat f_equal; lia.
  - (* Q^H Q = I *)
    intros [r a b u g]. rewrite matmul_eq by (smat_crush; lia). f_equal.
    smat_crush. apply smat_eq; try lia; phases.
  - (* U^H U = I and V V^H = I *)
    intros [r a b u g] U s Vh [= <- <- <-]. split.
    + rewrite matmul_eq by (smat_crush; lia). f_equal.
      smat_crush. apply smat_eq; try lia; phases.
    + rewrite matmul_eq by (smat_crush; lia). f_equal.
      smat_crush. apply smat_eq; try lia; phases.
  - (* the singular values *)
    intros [r a b u g] U s Vh [= <- <- <-]. unfold entries; cbn [vrk vzeros vmg]. split.
    + apply sorted_repeat_app. lia.
    + apply Forall_app. split; apply List.Forall_forall; intros x Hx;
        apply repeat_spec in Hx; lia.
  - (* U diag(s) V = X *)
    intros [r a b u g] U s Vh [= <- <- <-].
    rewrite matmul_eq by (smat_crush; lia). cbn [mbind option_bind].
    rewrite matmul_eq by (smat_crush; lia). f_equal.
    smat_crush. apply smat_eq; try lia; phases.
Qed.

(** *** The compact operations are the dense ones *)

Lemma dense_entry_dense X i j :
  i < nrows X -> j < ncols X -> dense_entry (dense X) i j = entry X i j.
Proof.
  intros Hi Hj. unfold dense_entry, dense.
  rewrite list_lookup_fmap, lookup_seq_lt by exact Hi. cbn.
  rewrite list_lookup_fmap, lookup_seq_lt by exact Hj. reflexivity.
Qed.

Lemma gadd_0_l x : gadd (0%Z, 0%Z) x = x.
Proof. destruct x. unfold gadd; cbn. f_equal; lia. Qed.

Lemma gadd_0_r x : gadd x (0%Z, 0%Z) = x.
Proof. destruct x. unfold gadd; cbn. f_equal; lia. Qed.

(** A sum with at most one non-zero term, the one at [i]. *)
Lemma sum_single (f : nat -> gauss) i n :
  (forall l, l <> i -> f l = (0%Z, 0%Z)) ->
  fold_right gadd (0%Z, 0%Z) (map f (seq 0 n)) =
  if i <? n then f i else (0%Z, 0%Z).
Proof.
  intros Hf. induction n as [|n IH].
  - reflexivity.
  - rewrite seq_S, map_app, fold_right_app. cbn [map fold_right Nat.add].
    rewrite gadd_0_r.
    destruct (Nat.eq_dec n i) as [->|Hn].
    + rewrite (proj2 (Nat.ltb_lt i (S i))) by lia.
      assert (forall acc k, k <= i ->
                fold_right gadd acc (map f (seq 0 k)) = acc) as Hz.
      { intros acc k Hk. induction k as [|k IHk]; [reflexivity|].
        rewrite seq_S, map_app, fold_right_app. cbn [map fold_right Nat.add].
        rewrite (Hf k) by lia. rewrite gadd_0_l. apply IHk. lia. }
      apply Hz. lia.
    + rewrite (Hf n Hn), IH.
      destruct (Nat.ltb_spec i n), (Nat.ltb_spec i (S n)); try reflexivity; lia.
Qed.

Lemma gmul_gauss_of u a v b :
  gmul (gauss_of u a) (gauss_of v b) = gauss_of (phase_mul u v) (a * b).
Proof.
  destruct u, v; unfold gmul, gauss_of; cbn [fst snd phase_mul];
    rewrite Nat2Z.inj_mul; f_equal; lia.
Qed.

Lemma gmul_0_l x : gmul (0%Z, 0%Z) x = (0%Z, 0%Z).
Proof. destruct x. unfold gmul; cbn. f_equal; lia. Qed.

Lemma gmul_0_r x : gmul x (0%Z, 0%Z) = (0%Z, 0%Z).
Proof. destruct x. unfold gmul; cbn. f_equal; lia. Qed.

(** The product of two scaled partial identities, entry by entry, is
    the matrix product. *)
Theorem dense_matmul X Y XY :
  matmul X Y = Some XY ->
  dense XY = dense_mul (nrows X) (ncols X) (ncols Y) (dense X) (dense Y).
Proof.
  intros H. apply matmul_inv in H as [Hdim ->].
  destruct X as [r a b u g], Y as [r' a' b' u' g'].
  unfold nrows, ncols in Hdim; cbn [rk xrows xcols] in Hdim.
  unfold dense, dense_mul, nrows, ncols; cbn [rk xrows xcols ph mg].
  replace (Nat.min r r' + (r + a - Nat.min r r')) with (r + a) by lia.
  replace (Nat.min r r' + (r' + b' - Nat.min r r')) with (r' + b') by lia.
  apply map_ext_in. intros i Hi. apply in_seq in Hi.
  apply map_ext_in. intros j Hj. apply in_seq in Hj.
  rewrite (sum_single _ i).
  - destruct (Nat.ltb_spec i (r + b)) as [Hib|Hib].
    + rewrite (dense_entry_dense (SMat r a b u g)) by (unfold nrows, ncols; cbn; lia).
      rewrite (dense_entry_dense (SMat r' a' b' u' g')) by (unfold nrows, ncols; cbn; lia).
      unfold entry; cbn [rk ph mg]. rewrite Nat.eqb_refl. cbn [andb].
      destruct (Nat.eqb_spec i j) as [<-|Hij]; cbn [andb].
      * destruct (Nat.ltb_spec i r), (Nat.ltb_spec i r'),
          (Nat.ltb_spec i (Nat.min r r')); try lia;
          rewrite ?gmul_0_l, ?gmul_0_r; try reflexivity.
        symmetry. apply gmul_gauss_of.
      * destruct (i <? r); rewrite ?gmul_0_l, ?gmul_0_r; reflexivity.
    + unfold entry; cbn [rk ph mg].
      destruct (Nat.ltb_spec i (Nat.min r r')); [lia|].
      rewrite andb_false_r. reflexivity.
  - intros l Hl.
    destruct (Nat.ltb_spec l (r + b)) as [Hlb|Hlb].
    + rewrite (dense_entry_dense (SMat r a b u g)) by (unfold nrows, ncols; cbn; lia).
      unfold entry at 1; cbn [rk ph mg].
      destruct (Nat.eqb_spec i l); [congruence|]. cbn [andb]. apply gmul_0_l.
    + unfold dense_entry at 1, dense.
      rewrite list_lookup_fmap, lookup_seq_lt by lia. cbn.
      rewrite list_lookup_fmap, lookup_seq_ge by (cbn; lia). cbn. apply gmul_0_l.
Qed.

(** The compact adjoint, entry by entry, is the conjugate transpose. *)
Theorem dense_getH X :
  dense (getH X) = dense_adjoint (nrows X) (ncols X) (dense X).
Proof.
  destruct X as [r a b u g].
  unfold dense, dense_adjoint, getH, conj, getT, nrows, ncols;
    cbn [rk xrows xcols ph mg].
  apply map_ext_in. intros j Hj. apply in_seq in Hj.
  apply map_ext_in. intros i Hi. apply in_seq in Hi.
  rewrite (dense_entry_dense (SMat r a b u g)) by (unfold nrows, ncols; cbn; lia).
  unfold entry; cbn [rk ph mg].
  rewrite (Nat.eqb_sym i j).
  destruct (Nat.eqb_spec j i) as [->|Hij]; cbn [andb].
  - destruct (i <? r); [|reflexivity]. destruct u; unfold gconj; cbn; f_equal; lia.
  - reflexivity.
Qed.

(** The compact operations on samples, against the dense ones: the
    [3 x 2] matrix [2i * E] and a [2 x 3] matrix [-3 * E] of rank one. *)
Example dense_sample :
  dense (full 3 2 Pi 2)
  = [[(0, 2); (0, 0)]; [(0, 0); (0, 2)]; [(0, 0); (0, 0)]]%Z.
Proof. reflexivity. Qed.

Example dense_matmul_sample :
  dense <$> matmul (full 3 2 Pi 2) (SMat 1 1 2 Pm1 3)
  = Some (dense_mul 3 2 3 (dense (full 3 2 Pi 2)) (dense (SMat 1 1 2 Pm1 3))).
Proof. vm_compute. reflexivity. Qed.

Example dense_getH_sample :
  dense (getH (full 3 2 Pi 2)) = dense_adjoint 3 2 (dense (full 3 2 Pi 2)).
Proof. vm_compute. reflexivity. Qed.

(** [Q^H * Q = I] and [Q * (Q^H * X) = X] for the economy factor [Q] of
    [X]; [Q^H * X] is upper triangular. *)
Example dense_qr_sample :
  dense_mul 2 3 2 (dense_adjoint 3 2 (dense (unit_factor (full 3 2 Pi 2))))
                  (dense (unit_factor (full 3 2 Pi 2)))
  = dense (eye 2) /\
  dense_mul 3 2 2 (dense (unit_factor (full 3 2 Pi 2)))
    (dense_mul 2 3 2 (dense_adjoint 3 2 (dense (unit_factor (full 3 2 Pi 2))))
                     (dense (full 3 2 Pi 2)))
  = dense (full 3 2 Pi 2) /\
  dense_mul 2 3 2 (dense_adjoint 3 2 (dense (unit_factor (full 3 2 Pi 2))))
                  (dense (full 3 2 Pi 2))
  = [[(0, 2); (0, 0)]; [(0, 0); (0, 2)]]%Z.
Proof. repeat split; vm_compute; reflexivity. Qed.

(** [U * diag(s) * Vh = X] for the thin SVD of a [2 x 3] matrix of rank
    one, with [s = (3, 0)]. *)
Example dense_svd_sample :
  dense_mul 2 2 3 (dense (svd (SMat 1 1 2 Pm1 3)).1.1)
    (dense_mul 2 2 3 (dense (diag (svd (SMat 1 1 2 Pm1 3)).1.2))
                     (dense (svd (SMat 1 1 2 Pm1 3)).2))
  = dense (SMat 1 1 2 Pm1 3) /\
  entries (svd (SMat 1 1 2 Pm1 3)).1.2 = [3; 0]%Z.
Proof. split; vm_compute; reflexivity. Qed.

End ScaledLaws.

(** ** The symbolic implementation satisfies the shape contract *)

Module SymLaws.
Import Sym.

Lemma sym_shape_laws : ShapeLaws linalg.
Proof.
  constructor; cbn -[Nat.min py_stop]; unfold rows, cols; cbn -[Nat.min py_stop].
  - intros X Y Z. unfold matmul.
    destruct (Nat.eqb_spec (snd (shape X)) (fst (shape Y))); [|discriminate].
    intros [= <-]. split; [assumption | reflexivity].
  - intros X Y E. unfold matmul. rewrite E, Nat.eqb_refl. eexists; reflexivity.
  - reflexivity.
  - reflexivity.
  - reflexivity.
  - intros g r c Q g'. unfold randn.
    destruct (Z.leb_spec 0 r), (Z.leb_spec 0 c); cbn; try discriminate.
    intros [= <- <-]. repeat split; assumption.
  - intros g r c Hr Hc. unfold randn.
    destruct (Z.leb_spec 0 r), (Z.leb_spec 0 c); cbn; try lia. eexists; reflexivity.
  - reflexivity.
  - reflexivity.
  - intros X U s Vh [= <- <- <-]. cbn -[Nat.min].
    rewrite length_map, length_seq. repeat split.
  - reflexivity.
  - reflexivity.
  - intros k s. rewrite !length_map, !length_seq. reflexivity.
  - reflexivity.
  - intros s. rewrite !length_map, !length_seq. reflexivity.
Qed.

End SymLaws.

(** ** The control flow of [approx_range_finder] *)

Section ControlFlow.
Context {L : LinAlg}.

Lemma for_range_id n (body : Mat -> option Mat) Q :
  (forall Q, body Q = Some Q) -> for_range n body Q = Some Q.
Proof.
  intros Hb. induction n as [|n IH]; [reflexivity|].
  cbn [for_range]. rewrite Hb. exact IH.
Qed.

Lemma for_range_ext n (f h : Mat -> option Mat) Q :
  (forall Q, f Q = h Q) -> for_range n f Q = for_range n h Q.
Proof.
  intros Hfh. revert Q. induction n as [|n IH]; intros Q; [reflexivity|].
  cbn [for_range]. rewrite Hfh. destruct (h Q) as [Q'|]; [|reflexivity].
  cbn. apply IH.
Qed.

(** The rounds of ['none'] and of ['LU'], product by product. *)
Lemma power_iteration_none A Q :
  power_iteration A "none" Q = AQ ← matmul A Q; matmul (getH A) AQ.
Proof. reflexivity. Qed.

Lemma power_iteration_LU A Q :
  power_iteration A "LU" Q =
    AQ ← matmul A Q; AHQ ← matmul (getH A) (lu AQ); Some (lu AHQ).
Proof.
  unfold power_iteration. cbn.
  destruct (matmul A Q) as [AQ|]; [|reflexivity]. cbn.
  destruct (matmul (getH A) (lu AQ)); reflexivity.
Qed.

(** A normalizer that is none of the three strings the loop tests for
    leaves [Q] as it is. *)
Lemma power_iteration_other A norm Q :
  norm <> "none"%string -> norm <> "LU"%string -> norm <> "QR"%string ->
  power_iteration A norm Q = Some Q.
Proof.
  intros H1 H2 H3. unfold power_iteration.
  apply String.eqb_neq in H1, H2, H3. rewrite H1, H2, H3. reflexivity.
Qed.

(** After the resolution of ['auto'], the function draws [Q], runs the
    loop, and ends with the product by [A] and the economy QR. *)
Lemma approx_range_finder_unfold A size n_iter norm g :
  norm <> "auto"%string ->
  approx_range_finder A size n_iter norm g =
    '(Q0, g') ← randn g (Z.of_nat (cols A)) size;
    Qn ← for_range (range_len n_iter) (power_iteration A norm) Q0;
    X ← matmul A Qn;
    Some (qr X, g').
Proof.
  intros Hn. unfold approx_range_finder, asmatrix.
  apply String.eqb_neq in Hn. rewrite Hn.
  destruct (randn g _ size) as [[Q0 g']|]; [|reflexivity]. cbn.
  destruct (for_range _ _ Q0) as [Qn|]; [|reflexivity]. cbn.
  destruct (matmul A Qn); reflexivity.
Qed.

Lemma approx_range_finder_auto A size n_iter g :
  approx_range_finder A size n_iter "auto" g =
  approx_range_finder A size n_iter
    (if n_iter <=? 2 then "none"%string else "LU"%string) g.
Proof.
  unfold approx_range_finder. destruct (n_iter <=? 2); reflexivity.
Qed.

End ControlFlow.

(** ** Shapes through [approx_range_finder] *)

Section Shapes.
Context {L : LinAlg} {SL : ShapeLaws L}.

Local Open Scope nat_scope.

Lemma shape_rows_cols (X : Mat) m n : shape X = (m, n) <-> rows X = m /\ cols X = n.
Proof.
  unfold rows, cols. destruct (shape X) as [a b]; cbn. split.
  - intros [= -> ->]. split; reflexivity.
  - intros [-> ->]. reflexivity.
Qed.

Lemma matmul_shape X Y m n p :
  shape X = (m, n) -> shape Y = (n, p) ->
  exists Z, matmul X Y = Some Z /\ shape Z = (m, p).
Proof.
  intros HX HY. apply shape_rows_cols in HX as [HX1 HX2], HY as [HY1 HY2].
  destruct (matmul_is_Some X Y) as [Z HZ]; [congruence|].
  exists Z. split; [assumption|].
  apply matmul_Some in HZ as [_ ->]. congruence.
Qed.

Lemma getH_rows_cols (X : Mat) : rows (getH X) = cols X /\ cols (getH X) = rows X.
Proof. unfold rows at 1, cols at 2. rewrite getH_shape. split; reflexivity. Qed.

(** One pass of the loop keeps the number of rows of [Q] at [n] and its
    number of columns between [lo] and [hi], whatever the normalizer. *)
Lemma power_iteration_shape A norm Q m n lo hi :
  shape A = (m, n) -> rows Q = n -> lo <= cols Q <= hi -> lo <= m -> lo <= n ->
  exists Q', power_iteration A norm Q = Some Q' /\
             rows Q' = n /\ lo <= cols Q' <= hi.
Proof.
  intros HA HQ Hc Hm Hn.
  assert (shape (getH A) = (n, m)) as HAH.
  { rewrite getH_shape. apply shape_rows_cols in HA as [-> ->]. reflexivity. }
  assert (shape Q = (n, cols Q)) as HQs by (apply shape_rows_cols; auto).
  destruct (matmul_shape A Q m n (cols Q) HA HQs) as (Q1 & E1 & S1).
  unfold power_iteration.
  destruct (String.eqb norm "none");
    [|destruct (String.eqb norm "LU"); [|destruct (String.eqb norm "QR")]].
  - rewrite E1; cbn.
    destruct (matmul_shape (getH A) Q1 n m (cols Q) HAH S1) as (Q2 & E2 & S2).
    exists Q2. apply shape_rows_cols in S2 as [? ?]. repeat split; try assumption; lia.
  - rewrite E1; cbn.
    assert (shape (lu Q1) = (m, Nat.min m (cols Q))) as S1'.
    { rewrite lu_shape. apply shape_rows_cols in S1 as [-> ->]. reflexivity. }
    destruct (matmul_shape (getH A) (lu Q1) n m _ HAH S1') as (Q2 & E2 & S2).
    rewrite E2; cbn. exists (lu Q2).
    assert (shape (lu Q2) = (n, Nat.min n (Nat.min m (cols Q)))) as S2'.
    { rewrite lu_shape. apply shape_rows_cols in S2 as [-> ->]. reflexivity. }
    apply shape_rows_cols in S2' as [? ?]. repeat split; try assumption; lia.
  - rewrite E1; cbn.
    assert (shape (qr Q1) = (m, Nat.min m (cols Q))) as S1'.
    { rewrite qr_shape. apply shape_rows_cols in S1 as [-> ->]. reflexivity. }
    destruct (matmul_shape (getH A) (qr Q1) n m _ HAH S1') as (Q2 & E2 & S2).
    rewrite E2; cbn. exists (qr Q2).
    assert (shape (qr Q2) = (n, Nat.min n (Nat.min m (cols Q)))) as S2'.
    { rewrite qr_shape. apply shape_rows_cols in S2 as [-> ->]. reflexivity. }
    apply shape_rows_cols in S2' as [? ?]. repeat split; try assumption; lia.
  - exists Q. repeat split; try assumption; lia.
Qed.

Lemma for_range_shape A norm k Q m n lo hi :
  shape A = (m, n) -> rows Q = n -> lo <= cols Q <= hi -> lo <= m -> lo <= n ->
  exists Q', for_range k (power_iteration A norm) Q = Some Q' /\
             rows Q' = n /\ lo <= cols Q' <= hi.
Proof.
  intros HA HQ Hc Hm Hn. revert Q HQ Hc.
  induction k as [|k IH]; intros Q HQ Hc.
  - exists Q. repeat split; try assumption; lia.
  - cbn [for_range].
    destruct (power_iteration_shape A norm Q m n lo hi HA HQ Hc Hm Hn)
      as (Q1 & E1 & R1 & C1).
    rewrite E1; cbn. apply IH; assumption.
Qed.

(** The range finder returns: it draws [Q0] of shape [(n, size)], the
    loop gives some [Qn], and the result is the economy QR factor of
    [A * Qn].  Its number of columns is [size] when [size <= min(m, n)],
    and lies between [min(size, m, n)] and [min(m, size)] in general. *)
Lemma approx_range_finder_returns A m n (size n_iter : Z) norm g :
  shape A = (m, n) -> (0 <= size)%Z ->
  exists Q0 g' Qn X,
    randn g (Z.of_nat n) size = Some (Q0, g') /\
    shape Q0 = (n, Z.to_nat size) /\
    matmul A Qn = Some X /\
    approx_range_finder A size n_iter norm g = Some (qr X, g') /\
    rows (qr X) = m /\
    Nat.min (Z.to_nat size) (Nat.min m n) <= cols (qr X) <= Nat.min m (Z.to_nat size).
Proof.
  intros HA Hsize.
  assert (cols A = n) as HcA by (apply shape_rows_cols in HA as [_ ?]; assumption).
  destruct (randn_is_Some g (Z.of_nat n) size) as [[Q0 g'] E0]; [lia | lia |].
  pose proof (randn_Some _ _ _ _ _ E0) as (_ & _ & S0).
  rewrite Nat2Z.id in S0.
  unfold approx_range_finder, asmatrix. rewrite HcA, E0; cbn.
  set (norm' := if String.eqb norm "auto" then _ else _).
  pose proof S0 as S0'. apply shape_rows_cols in S0' as [R0 C0].
  destruct (for_range_shape A norm' (range_len n_iter) Q0 m n
              (Nat.min (Z.to_nat size) (Nat.min m n)) (Z.to_nat size) HA R0)
    as (Qn & En & Rn & Cn); try lia.
  rewrite En; cbn.
  assert (shape Qn = (n, cols Qn)) as Sn by (apply shape_rows_cols; auto).
  destruct (matmul_shape A Qn m n (cols Qn) HA Sn) as (X & EX & SX).
  rewrite EX; cbn.
  exists Q0, g', Qn, X.
  repeat split; try reflexivity; try assumption.
  - unfold rows. rewrite qr_shape. apply shape_rows_cols in SX as [-> _]. reflexivity.
  - unfold cols at 1. rewrite qr_shape. apply shape_rows_cols in SX as [-> ->]. cbn. lia.
  - unfold cols at 1. rewrite qr_shape. apply shape_rows_cols in SX as [-> ->]. cbn. lia.
Qed.

(** One pass of the loop on an [n x c] matrix: ['LU'] and ['QR'] leave
    [min(n, m, c)] columns, every other normalizer leaves [c]. *)
Lemma power_iteration_cols A norm Q m n :
  shape A = (m, n) -> rows Q = n ->
  exists Q', power_iteration A norm Q = Some Q' /\ rows Q' = n /\
    cols Q' = if String.eqb norm "LU" || String.eqb norm "QR"
              then Nat.min n (Nat.min m (cols Q)) else cols Q.
Proof.
  intros HA HQ.
  assert (shape (getH A) = (n, m)) as HAH.
  { rewrite getH_shape. apply shape_rows_cols in HA as [-> ->]. reflexivity. }
  assert (shape Q = (n, cols Q)) as HQs by (apply shape_rows_cols; auto).
  destruct (matmul_shape A Q m n (cols Q) HA HQs) as (Q1 & E1 & S1).
  unfold power_iteration.
  destruct (String.eqb norm "none") eqn:En.
  - apply String.eqb_eq in En as ->. cbn [String.eqb Ascii.eqb Bool.eqb orb].
    rewrite E1; cbn.
    destruct (matmul_shape (getH A) Q1 n m (cols Q) HAH S1) as (Q2 & E2 & S2).
    exists Q2. apply shape_rows_cols in S2 as [? ?]. auto.
  - destruct (String.eqb norm "LU"); [|destruct (String.eqb norm "QR")]; cbn [orb].
    + rewrite E1; cbn.
      assert (shape (lu Q1) = (m, Nat.min m (cols Q))) as S1'.
      { rewrite lu_shape. apply shape_rows_cols in S1 as [-> ->]. reflexivity. }
      destruct (matmul_shape (getH A) (lu Q1) n m _ HAH S1') as (Q2 & E2 & S2).
      rewrite E2; cbn. exists (lu Q2). split; [reflexivity|].
      unfold rows, cols at 1. rewrite lu_shape.
      apply shape_rows_cols in S2 as [-> ->]. auto.
    + rewrite E1; cbn.
      assert (shape (qr Q1) = (m, Nat.min m (cols Q))) as S1'.
      { rewrite qr_shape. apply shape_rows_cols in S1 as [-> ->]. reflexivity. }
      destruct (matmul_shape (getH A) (qr Q1) n m _ HAH S1') as (Q2 & E2 & S2).
      rewrite E2; cbn. exists (qr Q2). split; [reflexivity|].
      unfold rows, cols at 1. rewrite qr_shape.
      apply shape_rows_cols in S2 as [-> ->]. auto.
    + exists Q. auto.
Qed.

Lemma for_range_cols A norm k Q m n :
  shape A = (m, n) -> rows Q = n ->
  exists Q', for_range k (power_iteration A norm) Q = Some Q' /\ rows Q' = n /\
    cols Q' = if (String.eqb norm "LU" || String.eqb norm "QR") && (0 <? k)
              then Nat.min (cols Q) (Nat.min m n) else cols Q.
Proof.
  intros HA. revert Q. induction k as [|k IH]; intros Q HQ.
  - exists Q. rewrite andb_false_r. auto.
  - cbn [for_range].
    destruct (power_iteration_cols A norm Q m n HA HQ) as (Q1 & E1 & R1 & C1).
    rewrite E1; cbn.
    destruct (IH Q1 R1) as (Q' & E' & R' & C').
    exists Q'. split; [exact E'|]. split; [exact R'|].
    rewrite C', C1.
    destruct (String.eqb norm "LU" || String.eqb norm "QR"); cbn [andb];
      [|reflexivity].
    destruct k; cbn; lia.
Qed.

(** The basis that the range finder returns, with its exact number of
    columns: [min(size, m, n)] once a round has normalized, and
    [min(m, size)] otherwise. *)
Lemma approx_range_finder_cols A m n (size n_iter : Z) norm g :
  shape A = (m, n) -> (0 <= size)%Z ->
  exists Qn X g',
    matmul A Qn = Some X /\
    approx_range_finder A size n_iter norm g = Some (qr X, g') /\
    shape (qr X) =
      (m,
       if (1 <=? n_iter)%Z &&
          (String.eqb norm "LU" || String.eqb norm "QR" ||
           (String.eqb norm "auto" && (2 <? n_iter)%Z))
       then Nat.min (Z.to_nat size) (Nat.min m n)
       else Nat.min m (Z.to_nat size)).
Proof.
  intros HA Hsize.
  assert (cols A = n) as HcA by (apply shape_rows_cols in HA as [_ ?]; assumption).
  destruct (randn_is_Some g (Z.of_nat n) size) as [[Q0 g'] E0]; [lia | lia |].
  pose proof (randn_Some _ _ _ _ _ E0) as (_ & _ & S0).
  rewrite Nat2Z.id in S0. apply shape_rows_cols in S0 as [R0 C0].
  unfold approx_range_finder, asmatrix. rewrite HcA, E0; cbn.
  set (norm' := if String.eqb norm "auto" then _ else _).
  destruct (for_range_cols A norm' (range_len n_iter) Q0 m n HA R0)
    as (Qn & En & Rn & Cn).
  rewrite En; cbn.
  assert (shape Qn = (n, cols Qn)) as Sn by (apply shape_rows_cols; auto).
  destruct (matmul_shape A Qn m n (cols Qn) HA Sn) as (X & EX & SX).
  exists Qn, X, g'. split; [exact EX|]. rewrite EX; cbn. split; [reflexivity|].
  rewrite qr_shape. apply shape_rows_cols in SX as [-> ->]. f_equal.
  rewrite Cn, C0.
  assert ((0 <? range_len n_iter)%nat = (1 <=? n_iter)%Z) as ->.
  { unfold range_len. destruct (Z.leb_spec 1 n_iter), (Nat.ltb_spec 0 (Z.to_nat n_iter));
      try reflexivity; lia. }
  assert ((String.eqb norm' "LU" || String.eqb norm' "QR")
          = (String.eqb norm "LU" || String.eqb norm "QR" ||
             (String.eqb norm "auto" && (2 <? n_iter)%Z))) as ->.
  { unfold norm'. destruct (String.eqb norm "auto") eqn:Ea.
    - apply String.eqb_eq in Ea as ->. cbn.
      destruct (Z.leb_spec n_iter 2), (Z.ltb_spec 2 n_iter); try reflexivity; lia.
    - rewrite orb_false_r. reflexivity. }
  rewrite andb_comm.
  destruct ((1 <=? n_iter)%Z && _); lia.
Qed.

End Shapes.

(** ** Orthonormal factors *)

Section Algebra.
Context {L : LinAlg} {SL : ShapeLaws L} {ML : MatrixLaws L}.

Local Open Scope nat_scope.

Lemma getH_getH (X : Mat) : getH (getH X) = X.
Proof.
  rewrite !getH_conj_getT, <- conj_getT, conj_conj. apply getT_getT.
Qed.

Lemma conj_getH (X : Mat) : conj (getH X) = getT X.
Proof. rewrite getH_conj_getT. apply conj_conj. Qed.

Lemma getH_conj (X : Mat) : getH (conj X) = getT X.
Proof. rewrite getH_conj_getT, <- conj_getT. apply conj_conj. Qed.










(** The triple cut from a lifted thin SVD stands for the basis times
    the truncated SVD of the sketch: with [U = Q * Uhat],
    [U[:, :k] * diag(s[:k]) * Vh[:k, :] = Q * (Uhat[:, :k] * diag(s[:k]) * Vh[:k, :])]. *)
Lemma reconstruct_lifted (Q B U : Mat) (k : Z) m n w :
  shape Q = (m, w) -> shape B = (w, n) ->
  matmul Q (svd B).1.1 = Some U ->
  exists R W,
    truncated_svd k B = Some R /\ matmul Q R = Some W /\
    reconstruct (take_cols k U) (take_vec k (svd B).1.2)
      (getH (take_rows k (svd B).2)) = Some W /\
    reconstruct (getT (take_rows k (svd B).2)) (take_vec k (svd B).1.2)
      (conj (take_cols k U)) = Some (getT W).
Proof.
  intros SQ SB EU. unfold truncated_svd, reconstruct, matmul3.
  destruct (svd B) as [[Uh s] Vh] eqn:Esvd. cbn [fst snd] in *.
  destruct (svd_shape B Uh s Vh Esvd) as (SU & Ls & SV).
  apply shape_rows_cols in SB as [RB CB]. rewrite RB, CB in SU, Ls, SV.
  set (K := Nat.min w n) in *. set (k' := py_stop k K).
  set (D := diag (take_vec k s)).
  assert (shape D = (k', k')) as SD.
  { unfold D. rewrite diag_shape, take_vec_length, Ls. reflexivity. }
  assert (shape (take_cols k Uh) = (w, k')) as SUk.
  { rewrite take_cols_shape. apply shape_rows_cols in SU as [-> ->]. reflexivity. }
  assert (shape (take_rows k Vh) = (k', n)) as SVk.
  { rewrite take_rows_shape. apply shape_rows_cols in SV as [-> ->]. reflexivity. }
  destruct (matmul_shape _ _ _ _ _ SUk SD) as (P1 & EP1 & SP1).
  destruct (matmul_shape _ _ _ _ _ SP1 SVk) as (R & ER & SR).
  destruct (matmul_shape _ _ _ _ _ SQ SR) as (W & EW & SW).
  destruct (matmul_shape _ _ _ _ _ SQ SP1) as (P & EP & SP).
  pose proof (take_cols_matmul k _ _ _ EU) as EUk.
  assert (matmul (take_cols k U) D = Some P) as EP'.
  { rewrite (matmul_assoc _ _ _ _ _ EUk EP1). exact EP. }
  assert (matmul P (take_rows k Vh) = Some W) as EW'.
  { rewrite (matmul_assoc _ _ _ _ _ EP ER). exact EW. }
  exists R, W. rewrite EP1; cbn. split; [exact ER|]. split; [exact EW|].
  rewrite getH_getH, EP'; cbn. split; [exact EW'|].
  rewrite getH_conj.
  pose proof (getT_matmul _ _ _ EW') as EWT.
  pose proof (getT_matmul _ _ _ EP') as EPT. fold D in EPT. unfold D in EPT at 1.
  rewrite getT_diag in EPT. fold D in EPT.
  assert (shape (getT (take_rows k Vh)) = (n, k')) as SVT.
  { rewrite getT_shape. apply shape_rows_cols in SVk as [-> ->]. reflexivity. }
  destruct (matmul_shape _ _ _ _ _ SVT SD) as (P2 & EP2 & SP2).
  rewrite EP2; cbn.
  rewrite (matmul_assoc _ _ _ _ _ EP2 EPT). exact EWT.
Qed.

End Algebra.

(** ** [randomized_svd]: the sketch and its factors *)

Section Sketch.
Context {L : LinAlg} {SL : ShapeLaws L}.

Local Open Scope nat_scope.

(** With [n_iter] and [transpose] given, the function runs the range
    finder on the working matrix ([M], or [M.T] when transposing),
    projects, factors the sketch and lifts. *)
Lemma randomized_svd_unfold M (k p n : Z) norm (b : bool) g :
  randomized_svd M k p (NIter n) norm (Transpose b) g =
    let M' := if b then getT M else M in
    '(Q, g') ← approx_range_finder M' (k + p) n norm g;
    B ← matmul (getH Q) M';
    U ← matmul Q (svd B).1.1;
    Some (if b
          then (getT (take_rows k (svd B).2), take_vec k (svd B).1.2,
                conj (take_cols k U), g')
          else (take_cols k U, take_vec k (svd B).1.2,
                getH (take_rows k (svd B).2), g')).
Proof.
  unfold randomized_svd, asmatrix. cbn zeta.
  destruct (approx_range_finder _ _ _ _ _) as [[Q g']|]; [|reflexivity]. cbn.
  destruct (matmul (getH Q) _) as [B|]; [|reflexivity]. cbn.
  destruct (svd B) as [[Uh s] Vh]. cbn.
  destruct (matmul Q Uh); [|reflexivity]. cbn. destruct b; reflexivity.
Qed.

(** The sketch of a working matrix [M'] of shape [(m, n)]: the basis
    [Q] has [w] columns, [B = Q^H * M'] is [w x n], and the thin SVD of
    [B] and the lifted [U = Q * Uhat] have [min(w, n)] singular
    triplets. *)
Lemma sketch_shapes M' m n (size n_iter : Z) norm g :
  shape M' = (m, n) -> (0 <= size)%Z ->
  exists Q g' B U w,
    approx_range_finder M' size n_iter norm g = Some (Q, g') /\
    matmul (getH Q) M' = Some B /\
    matmul Q (svd B).1.1 = Some U /\
    (exists Qn X, matmul M' Qn = Some X /\ Q = qr X) /\
    Nat.min (Z.to_nat size) (Nat.min m n) <= w <= Nat.min m (Z.to_nat size) /\
    shape Q = (m, w) /\ shape B = (w, n) /\
    shape (svd B).1.1 = (w, Nat.min w n) /\
    length (entries (svd B).1.2) = Nat.min w n /\
    shape (svd B).2 = (Nat.min w n, n) /\
    shape U = (m, Nat.min w n).
Proof.
  intros HM Hsize.
  destruct (approx_range_finder_returns M' m n size n_iter norm g HM Hsize)
    as (Q0 & g' & Qn & X & _ & _ & EX & EQ & RQ & CQ).
  set (Q := qr X) in *. set (w := cols Q) in *.
  assert (shape Q = (m, w)) as SQ by (apply shape_rows_cols; auto).
  assert (shape (getH Q) = (w, m)) as SQH.
  { rewrite getH_shape. fold w. rewrite RQ. reflexivity. }
  destruct (matmul_shape (getH Q) M' w m n SQH HM) as (B & EB & SB).
  destruct (svd B) as [[Uh s] Vh] eqn:Esvd.
  destruct (svd_shape B Uh s Vh Esvd) as (SU & Ls & SV).
  apply shape_rows_cols in SB as [RB CB]. rewrite RB, CB in SU, Ls, SV.
  destruct (matmul_shape Q Uh m w _ SQ SU) as (U & EU & SUl).
  exists Q, g', B, U, w. rewrite Esvd. cbn [fst snd].
  repeat split; try assumption; try lia.
  - exists Qn, X. split; [assumption | reflexivity].
  - apply shape_rows_cols. auto.
Qed.

End Sketch.

(** ** The module over Python's objects does what the definitions over
    values say *)

Section ObjectFacts.
Context {L : LinAlg}.

Lemma extends_refl w : extends w w.
Proof. unfold extends. reflexivity. Qed.

Lemma extends_trans w1 w2 w3 : extends w1 w2 -> extends w2 w3 -> extends w1 w3.
Proof. unfold extends. intros H1 H2. etransitivity; eassumption. Qed.

Lemma same_generators_refl rgen w : same_generators_except rgen w w.
Proof. intros h _. reflexivity. Qed.

Lemma same_generators_trans rgen w1 w2 w3 :
  same_generators_except rgen w1 w2 -> same_generators_except rgen w2 w3 ->
  same_generators_except rgen w1 w3.
Proof. intros H1 H2 h Hh. rewrite H2, H1 by assumption. reflexivity. Qed.

Lemma holds_extends w w' a X : holds w a X -> extends w w' -> holds w' a X.
Proof.
  unfold holds, read, extends; cbn. intros H Hext.
  destruct (buffers w !! base a) as [c|] eqn:E; [|discriminate].
  rewrite (prefix_lookup_Some _ _ _ _ E Hext). exact H.
Qed.

Lemma holds1_extends w w' v s : holds1 w v s -> extends w w' -> holds1 w' v s.
Proof.
  unfold holds1, read1, extends; cbn. intros H Hext.
  destruct (buffers w !! base1 v) as [c|] eqn:E; [|discriminate].
  rewrite (prefix_lookup_Some _ _ _ _ E Hext). exact H.
Qed.

Lemma holds_view (f : Mat -> Mat) w a X :
  holds w a X -> holds w (Array (base a) (fun Y => f (view a Y))) (f X).
Proof.
  unfold holds, read; cbn.
  destruct (buffers w !! base a) as [[Y|s]|]; try discriminate.
  intros [= <-]. reflexivity.
Qed.

Lemma holds1_view (f : Vec -> Vec) w v s :
  holds1 w v s -> holds1 w (Array1 (base1 v) (fun y => f (view1 v y))) (f s).
Proof.
  unfold holds1, read1; cbn.
  destruct (buffers w !! base1 v) as [[Y|y]|]; try discriminate.
  intros [= <-]. reflexivity.
Qed.

Lemma read_holds w a X : holds w a X -> read a w = (w, Some X).
Proof. unfold holds, read; cbn. intros ->. reflexivity. Qed.

Lemma tracks_conv {T V} (rel : World -> T -> V -> Prop) rgen c w v v' :
  tracks rel rgen c w v -> v = v' -> tracks rel rgen c w v'.
Proof. intros H <-. exact H. Qed.

Lemma tracks_ret {T V} (rel : World -> T -> V -> Prop) rgen w t x :
  rel w t x -> tracks rel rgen (py_ret t) w (Some (x, generators w rgen)).
Proof.
  intros H. unfold tracks, py_ret; cbn.
  split; [apply extends_refl|]. split; [apply same_generators_refl|].
  exists t. auto.
Qed.

Lemma tracks_bind {T U V W} (rel1 : World -> T -> V -> Prop)
    (rel2 : World -> U -> W -> Prop) rgen (c : Py T) (f : T -> Py U) w
    (v : option (V * RGen)) (fv : V -> RGen -> option (W * RGen)) :
  tracks rel1 rgen c w v ->
  (forall t x w1, extends w w1 -> same_generators_except rgen w w1 ->
     rel1 w1 t x ->
     tracks rel2 rgen (f t) w1 (fv x (generators w1 rgen))) ->
  tracks rel2 rgen (py_bind c f) w
    (match v with Some (x, g1) => fv x g1 | None => None end).
Proof.
  unfold tracks at 1. intros (E & G & R) Hf. unfold tracks, py_bind.
  destruct (c w) as [w1 r]; cbn [fst snd] in *.
  destruct v as [[x g1]|].
  - destruct R as (t & -> & Hrel & <-).
    destruct (Hf t x w1 E G Hrel) as (E2 & G2 & R2).
    split; [eapply extends_trans; eassumption|].
    split; [eapply same_generators_trans; eassumption|]. exact R2.
  - rewrite R. cbn. auto.
Qed.

Lemma tracks_new_array rgen w X :
  tracks holds rgen (new_array X) w (Some (X, generators w rgen)).
Proof.
  unfold tracks, new_array; cbn.
  split; [unfold extends; cbn; apply prefix_app_r; reflexivity|].
  split; [intros h _; reflexivity|].
  eexists. split; [reflexivity|]. split; [|reflexivity].
  unfold holds, read; cbn. rewrite lookup_app_r by lia.
  rewrite Nat.sub_diag. reflexivity.
Qed.

Lemma tracks_new_array1 rgen w s :
  tracks holds1 rgen (new_array1 s) w (Some (s, generators w rgen)).
Proof.
  unfold tracks, new_array1; cbn.
  split; [unfold extends; cbn; apply prefix_app_r; reflexivity|].
  split; [intros h _; reflexivity|].
  eexists. split; [reflexivity|]. split; [|reflexivity].
  unfold holds1, read1; cbn. rewrite lookup_app_r by lia.
  rewrite Nat.sub_diag. reflexivity.
Qed.

Lemma tracks_matmul rgen w a b X Y :
  holds w a X -> holds w b Y ->
  tracks holds rgen (py_matmul a b) w
    (match matmul X Y with Some Z => Some (Z, generators w rgen) | None => None end).
Proof.
  intros Ha Hb. unfold py_matmul, py_bind.
  unfold tracks. rewrite (read_holds _ _ _ Ha), (read_holds _ _ _ Hb).
  destruct (matmul X Y) as [Z|].
  - apply tracks_new_array.
  - cbn. split; [apply extends_refl|]. split; [apply same_generators_refl|reflexivity].
Qed.

Lemma tracks_lu rgen w a X :
  holds w a X -> tracks holds rgen (py_lu a) w (Some (lu X, generators w rgen)).
Proof.
  intros Ha. unfold py_lu, py_bind, tracks. rewrite (read_holds _ _ _ Ha).
  apply tracks_new_array.
Qed.

Lemma tracks_qr rgen w a X :
  holds w a X -> tracks holds rgen (py_qr a) w (Some (qr X, generators w rgen)).
Proof.
  intros Ha. unfold py_qr, py_bind, tracks. rewrite (read_holds _ _ _ Ha).
  apply tracks_new_array.
Qed.

Lemma tracks_randn rgen w r c :
  tracks holds rgen (py_randn rgen r c) w (randn (generators w rgen) r c).
Proof.
  unfold tracks, py_randn.
  destruct (randn (generators w rgen) r c) as [[Q g']|]; cbn.
  - split; [unfold extends; cbn; apply prefix_app_r; reflexivity|].
    split.
    + intros h Hh. cbn. apply Nat.eqb_neq in Hh. rewrite Hh. reflexivity.
    + eexists. split; [reflexivity|]. split.
      * unfold holds, read; cbn. rewrite lookup_app_r by lia.
        rewrite Nat.sub_diag. reflexivity.
      * cbn. rewrite Nat.eqb_refl. reflexivity.
  - split; [apply extends_refl|]. split; [apply same_generators_refl|reflexivity].
Qed.

Lemma tracks_bind_ret {T U W} (rel : World -> U -> W -> Prop) rgen (t : T)
    (f : T -> Py U) w v :
  tracks rel rgen (f t) w v -> tracks rel rgen (py_bind (py_ret t) f) w v.
Proof. intros H. exact H. Qed.

(** A pure step of the definitions over values, carried by the state
    [g] of the generator. *)
Lemma tracks_pure_bind {T U V W} (rel1 : World -> T -> V -> Prop)
    (rel2 : World -> U -> W -> Prop) rgen (c : Py T) (f : T -> Py U) w
    (o : option V) (k : V -> option W) :
  tracks rel1 rgen c w
    (match o with Some x => Some (x, generators w rgen) | None => None end) ->
  (forall t x w1, extends w w1 -> same_generators_except rgen w w1 ->
     rel1 w1 t x ->
     tracks rel2 rgen (f t) w1
       (match k x with Some y => Some (y, generators w1 rgen) | None => None end)) ->
  tracks rel2 rgen (py_bind c f) w
    (match o ≫= k with Some y => Some (y, generators w rgen) | None => None end).
Proof.
  intros Hc Hf.
  eapply tracks_conv.
  - eapply (tracks_bind rel1 rel2 rgen c f w _
              (fun x g1 => match k x with Some y => Some (y, g1) | None => None end)).
    + exact Hc.
    + exact Hf.
  - destruct o; reflexivity.
Qed.

(** A round of the loop normalized by [fac] (LU or QR): the
    factorization is applied after each of the two products. *)
Lemma tracks_normalized_round (pfac : array -> Py array) (fac : Mat -> Mat)
    rgen w A Am Q Qm :
  (forall w a X, holds w a X ->
     tracks holds rgen (pfac a) w (Some (fac X, generators w rgen))) ->
  holds w A Am -> holds w Q Qm ->
  tracks holds rgen
    (py_bind (py_matmul A Q) (fun AQ =>
     py_bind (pfac AQ) (fun Q =>
     py_bind (py_H A) (fun AH =>
     py_bind (py_matmul AH Q) (fun AQ => pfac AQ))))) w
    (match (fac <$> matmul Am Qm) ≫= (fun Q => fac <$> matmul (getH Am) Q) with
     | Some Q' => Some (Q', generators w rgen)
     | None => None
     end).
Proof.
  intros Hfac HA HQ.
  eapply tracks_conv.
  - apply (tracks_pure_bind holds holds _ _ _ _ (matmul Am Qm)
             (fun X1 => fac <$> matmul (getH Am) (fac X1)));
      [apply tracks_matmul; assumption|].
    intros AQ X1 w1 E1 _ H1.
    eapply tracks_conv.
    + apply (tracks_pure_bind holds holds _ _ _ _ (Some (fac X1))
               (fun Y => fac <$> matmul (getH Am) Y));
        [apply Hfac; exact H1|].
      intros Q1 Y w2 E2 _ H2. apply tracks_bind_ret.
      eapply tracks_conv.
      * apply (tracks_pure_bind holds holds _ _ _ _ (matmul (getH Am) Y)
               (fun X => Some (fac X))).
        -- apply tracks_matmul; [apply holds_view|exact H2].
           eapply holds_extends; [exact HA|]. eapply extends_trans; eassumption.
        -- intros t X w3 _ _ Ht. apply Hfac. exact Ht.
      * destruct (matmul (getH Am) Y); reflexivity.
    + reflexivity.
  - destruct (matmul Am Qm); reflexivity.
Qed.

Lemma tracks_power_iteration rgen w A Am norm Q Qm :
  holds w A Am -> holds w Q Qm ->
  tracks holds rgen (power_iteration_py A norm Q) w
    (match power_iteration Am norm Qm with
     | Some Q' => Some (Q', generators w rgen)
     | None => None
     end).
Proof.
  intros HA HQ. unfold power_iteration_py, power_iteration.
  destruct (String.eqb norm "none");
    [|destruct (String.eqb norm "LU"); [|destruct (String.eqb norm "QR")]].
  - apply (tracks_pure_bind holds holds _ _ _ _ (matmul Am Qm)
             (fun X => matmul (getH Am) X));
      [apply tracks_matmul; assumption|].
    intros Q1 X1 w1 E1 _ H1. apply tracks_bind_ret.
    apply tracks_matmul; [apply holds_view|exact H1].
    eapply holds_extends; eassumption.
  - apply tracks_normalized_round; try assumption.
    intros; apply tracks_lu; assumption.
  - apply tracks_normalized_round; try assumption.
    intros; apply tracks_qr; assumption.
  - apply tracks_ret. exact HQ.
Qed.

Lemma tracks_for_range rgen A Am norm n : forall w Q Qm,
  holds w A Am -> holds w Q Qm ->
  tracks holds rgen (for_range_py n (power_iteration_py A norm) Q) w
    (match for_range n (power_iteration Am norm) Qm with
     | Some Q' => Some (Q', generators w rgen)
     | None => None
     end).
Proof.
  induction n as [|n IH]; intros w Q Qm HA HQ; cbn [for_range_py for_range].
  - apply tracks_ret. exact HQ.
  - apply (tracks_pure_bind holds holds _ _ _ _ (power_iteration Am norm Qm)
             (fun X => for_range n (power_iteration Am norm) X));
      [apply tracks_power_iteration; assumption|].
    intros Q1 X1 w1 E1 _ H1. apply IH; [|exact H1].
    eapply holds_extends; eassumption.
Qed.

Lemma tracks_shape {U W} (rel : World -> U -> W -> Prop) rgen A Am
    (f : nat * nat -> Py U) w v :
  holds w A Am ->
  tracks rel rgen (f (shape Am)) w v ->
  tracks rel rgen (py_bind (py_shape A) f) w v.
Proof.
  intros HA H. unfold tracks, py_bind, py_shape, py_bind.
  rewrite (read_holds _ _ _ HA). exact H.
Qed.

(** The range finder over objects follows the range finder over
    values, on the generator it was given or on [np.random]. *)
Lemma tracks_approx_range_finder w A Am size n_iter norm rgen :
  holds w A Am ->
  tracks holds (default np_random rgen)
    (approx_range_finder_py A size n_iter norm rgen) w
    (approx_range_finder Am size n_iter norm
       (generators w (default np_random rgen))).
Proof.
  intros HA. unfold approx_range_finder_py, approx_range_finder, asmatrix.
  set (h := default np_random rgen).
  set (norm' := if String.eqb norm "auto" then _ else _).
  apply tracks_bind_ret. apply (tracks_shape _ _ _ Am); [exact HA|].
  eapply tracks_conv.
  - apply (tracks_bind holds holds h _ _ w
             (randn (generators w h) (Z.of_nat (cols Am)) size)
             (fun Q0 g1 =>
                match for_range (range_len n_iter) (power_iteration Am norm') Q0
                      ≫= (fun Qn => qr <$> matmul Am Qn) with
                | Some Q => Some (Q, g1)
                | None => None
                end)); [apply tracks_randn|].
    intros Q0 X0 w1 E1 _ H0.
    assert (holds w1 A Am) as HA1 by (eapply holds_extends; eassumption).
    apply (tracks_pure_bind holds holds _ _ _ _
             (for_range (range_len n_iter) (power_iteration Am norm') X0)
             (fun Qn => qr <$> matmul Am Qn));
      [apply tracks_for_range; assumption|].
    intros Qn Xn w2 E2 _ Hn.
    assert (holds w2 A Am) as HA2 by (eapply holds_extends; eassumption).
    eapply tracks_conv.
    + apply (tracks_pure_bind holds holds _ _ _ _ (matmul Am Xn)
               (fun X => Some (qr X)));
        [apply tracks_matmul; assumption|].
      intros AQ X w3 E3 _ HX.
      apply (tracks_pure_bind holds holds _ _ _ _ (Some (qr X)) Some);
        [apply tracks_qr; exact HX|].
      intros Q Y w4 _ _ HQ. apply tracks_ret. exact HQ.
    + destruct (matmul Am Xn); reflexivity.
  - destruct (randn _ _ size) as [[Q0 g1]|]; [|reflexivity]. cbn.
    destruct (for_range _ _ Q0) as [Qn|]; [|reflexivity]. cbn.
    destruct (matmul Am Qn); reflexivity.
Qed.

Lemma tracks_read {U W} (rel : World -> U -> W -> Prop) rgen a X
    (f : Mat -> Py U) w v :
  holds w a X ->
  tracks rel rgen (f X) w v ->
  tracks rel rgen (py_bind (read a) f) w v.
Proof.
  intros Ha H. unfold tracks, py_bind. rewrite (read_holds _ _ _ Ha). exact H.
Qed.

Lemma tracks_svd rgen w a X :
  holds w a X ->
  tracks holds3 rgen (py_svd a) w (Some (svd X, generators w rgen)).
Proof.
  intros Ha. unfold py_svd. apply (tracks_read _ _ _ X); [exact Ha|].
  destruct (svd X) as [[U s] Vh].
  apply (tracks_pure_bind holds holds3 _ _ _ _ (Some U) (fun U => Some (U, s, Vh)));
    [apply tracks_new_array|].
  intros U0 U' w1 E1 _ HU.
  apply (tracks_pure_bind holds1 holds3 _ _ _ _ (Some s) (fun s => Some (U', s, Vh)));
    [apply tracks_new_array1|].
  intros s0 s' w2 E2 _ Hs.
  apply (tracks_pure_bind holds holds3 _ _ _ _ (Some Vh) (fun Vh => Some (U', s', Vh)));
    [apply tracks_new_array|].
  intros V0 V' w3 E3 _ HV.
  apply tracks_ret. repeat split; cbn [fst snd].
  - eapply holds_extends; [exact HU|]. eapply extends_trans; eassumption.
  - eapply holds1_extends; eassumption.
  - exact HV.
Qed.

(** The randomized SVD over objects follows the randomized SVD over
    values. *)
Lemma tracks_randomized_svd w M Mm k p n_iter norm transpose rgen :
  holds w M Mm ->
  tracks holds3 (default np_random rgen)
    (randomized_svd_py M k p n_iter norm transpose rgen) w
    (randomized_svd Mm k p n_iter norm transpose
       (generators w (default np_random rgen))).
Proof.
  intros HM. unfold randomized_svd_py, randomized_svd, asmatrix.
  set (h := default np_random rgen).
  apply tracks_bind_ret. apply (tracks_shape _ _ _ Mm); [exact HM|].
  fold (rows Mm) (cols Mm).
  set (n := match n_iter with NIterAuto => _ | NIter n => n end).
  set (b := match transpose with TransposeAuto => _ | Transpose b => b end).
  set (M'm := if b then getT Mm else Mm).
  assert (exists M', (if b then py_T M else py_ret M) = py_ret M' /\ holds w M' M'm)
    as (M' & -> & HM').
  { unfold M'm. destruct b.
    - eexists. split; [reflexivity|]. apply holds_view. exact HM.
    - exists M. split; [reflexivity | exact HM]. }
  apply tracks_bind_ret.
  eapply tracks_conv.
  - apply (tracks_bind holds holds3 h _ _ w
             (approx_range_finder M'm (k + p) n norm (generators w h))
             (fun Q g1 =>
                match
                  matmul (getH Q) M'm ≫= (fun B =>
                  matmul Q (svd B).1.1 ≫= (fun U =>
                  Some (if b
                        then (getT (take_rows k (svd B).2), take_vec k (svd B).1.2,
                              conj (take_cols k U))
                        else (take_cols k U, take_vec k (svd B).1.2,
                              getH (take_rows k (svd B).2)))))
                with
                | Some y => Some (y, g1)
                | None => None
                end)).
    + apply (tracks_approx_range_finder w M' M'm (k + p) n norm (Some h)). exact HM'.
    + intros Q Qm w1 E1 _ HQ.
      assert (holds w1 M' M'm) as HM1 by (eapply holds_extends; eassumption).
      apply tracks_bind_ret.
      apply (tracks_pure_bind holds holds3 _ _ _ _ (matmul (getH Qm) M'm));
        [apply tracks_matmul; [apply holds_view; exact HQ | exact HM1]|].
      intros B Bm w2 E2 _ HB.
      eapply tracks_conv.
      * apply (tracks_pure_bind holds3 holds3 _ _ _ _ (Some (svd Bm))
                 (fun t => matmul Qm t.1.1 ≫= (fun U =>
                    Some (if b
                          then (getT (take_rows k t.2), take_vec k t.1.2,
                                conj (take_cols k U))
                          else (take_cols k U, take_vec k t.1.2,
                                getH (take_rows k t.2))))));
          [apply tracks_svd; exact HB|].
        intros [[Uh s] V] [[Uhm sm] Vm] w3 E3 _ (HU & Hs & HV). cbn [fst snd] in *.
        apply (tracks_pure_bind holds holds3 _ _ _ _ (matmul Qm Uhm)).
        -- apply tracks_matmul; [|exact HU].
           eapply holds_extends; [exact HQ|]. eapply extends_trans; eassumption.
        -- intros U Um w4 E4 _ HUl.
           assert (holds1 w4 s sm) as Hs4 by (eapply holds1_extends; eassumption).
           assert (holds w4 V Vm) as HV4 by (eapply holds_extends; eassumption).
           destruct b.
           ++ unfold py_take_rows, py_take_cols, py_take_vec, py_asmatrix, py_T, py_conj.
              repeat apply tracks_bind_ret. apply tracks_ret.
              repeat split; cbn [fst snd base view].
              ** apply (holds_view getT _ (Array (base V) _)).
                 apply (holds_view (take_rows k)). exact HV4.
              ** apply (holds1_view (take_vec k)). exact Hs4.
              ** apply (holds_view conj _ (Array (base U) _)).
                 apply (holds_view (take_cols k)). exact HUl.
           ++ unfold py_take_rows, py_take_cols, py_take_vec, py_asmatrix, py_H.
              repeat apply tracks_bind_ret. apply tracks_ret.
              repeat split; cbn [fst snd base view].
              ** apply (holds_view (take_cols k)). exact HUl.
              ** apply (holds1_view (take_vec k)). exact Hs4.
              ** apply (holds_view getH _ (Array (base V) _)).
                 apply (holds_view (take_rows k)). exact HV4.
      * reflexivity.
  - destruct (approx_range_finder _ _ _ _ _) as [[Q g1]|]; [|reflexivity]. cbn.
    destruct (matmul (getH Q) M'm) as [B|]; [|reflexivity]. cbn.
    destruct (svd B) as [[Uh s] V]. cbn.
    destruct (matmul Q Uh); [|reflexivity]. cbn. destruct b; reflexivity.
Qed.

End ObjectFacts.

(** * Properties of the two functions *)

Section Resolution.
Context {L : LinAlg}.

(** The two ['auto'] arguments of [randomized_svd] are replaced by a
    number and a boolean before anything else happens. *)
Lemma randomized_svd_resolve M k p n_iter norm transpose g :
  randomized_svd M k p n_iter norm transpose g =
  randomized_svd M k p
    (NIter match n_iter with
           | NIterAuto =>
               if int_lt_float k
                    (fmul tenth (float_of_int (Z.of_nat (Nat.min (rows M) (cols M)))))
               then 7 else 4
           | NIter n => n
           end)
    norm
    (Transpose match transpose with
               | TransposeAuto => (rows M <? cols M)%nat
               | Transpose b => b
               end) g.
Proof. destruct n_iter, transpose; reflexivity. Qed.

(** The whole of [randomized_svd], step by step. *)
Lemma randomized_svd_pipeline M k p n_iter norm transpose g :
  randomized_svd M k p n_iter norm transpose g =
    let it := match n_iter with
              | NIterAuto =>
                  if int_lt_float k
                       (fmul tenth (float_of_int (Z.of_nat (Nat.min (rows M) (cols M)))))
                  then 7 else 4
              | NIter n => n
              end in
    let b := match transpose with
             | TransposeAuto => (rows M <? cols M)%nat
             | Transpose b => b
             end in
    let M' := if b then getT M else M in
    '(Q, g') ← approx_range_finder M' (k + p) it norm g;
    B ← matmul (getH Q) M';
    U ← matmul Q (svd B).1.1;
    Some (if b
          then (getT (take_rows k (svd B).2), take_vec k (svd B).1.2,
                conj (take_cols k U), g')
          else (take_cols k U, take_vec k (svd B).1.2,
                getH (take_rows k (svd B).2), g')).
Proof. rewrite randomized_svd_resolve. apply randomized_svd_unfold. Qed.

End Resolution.






(** C3 (as amended).  Without transposition, [randomized_svd] calls
    [approx_range_finder] once, on [M], with the size
    [sketch_size = n_components + n_oversamples]; forms [B = Q^H * M],
    which has [n] columns and as many rows as [Q] has columns:
    [min(sketch_size, m, n)] when at least one round of the range
    finder is normalized ([n_iter >= 1] with ['LU'] or ['QR'], or
    ['auto'] with [n_iter > 2]) and [min(sketch_size, m)] otherwise,
    hence [sketch_size] of them whenever [sketch_size <= min(m, n)];
    takes the thin SVD [B = Uhat * diag(s) * Vh]; lifts [U = Q * Uhat];
    and only then cuts the three factors to [n_components]. *)
Theorem randomized_svd_steps (L : LinAlg) (SL : ShapeLaws L) (ML : MatrixLaws L)
    (M : Mat) (m n : nat) (k p : Z) n_iter norm transpose g :
  shape M = (m, n) -> 0 <= k + p ->
  transpose = Transpose false \/ (transpose = TransposeAuto /\ (n <= m)%nat) ->
  exists it Q g' B U w,
    it = match n_iter with
         | NIterAuto =>
             if int_lt_float k
                  (fmul tenth (float_of_int (Z.of_nat (Nat.min m n))))
             then 7 else 4
         | NIter x => x
         end /\
    approx_range_finder M (k + p) it norm g = Some (Q, g') /\
    shape Q = (m, w) /\
    w = (if (1 <=? it) &&
            (String.eqb norm "LU" || String.eqb norm "QR" ||
             (String.eqb norm "auto" && (2 <? it)))
         then Nat.min (Z.to_nat (k + p)) (Nat.min m n)
         else Nat.min m (Z.to_nat (k + p))) /\
    (Nat.min (Z.to_nat (k + p)) (Nat.min m n) <= w <= Nat.min m (Z.to_nat (k + p)))%nat /\
    (k + p <= Z.of_nat (Nat.min m n) -> w = Z.to_nat (k + p)) /\
    matmul (getH Q) M = Some B /\
    shape B = (w, n) /\
    matmul3 (svd B).1.1 (diag (svd B).1.2) (svd B).2 = Some B /\
    matmul Q (svd B).1.1 = Some U /\
    randomized_svd M k p n_iter norm transpose g =
      Some (take_cols k U, take_vec k (svd B).1.2,
            getH (take_rows k (svd B).2), g').
Proof.
  intros HM Hkp Htr.
  rewrite randomized_svd_resolve.
  pose proof HM as HM0. apply shape_rows_cols in HM0 as [Hr Hc]. rewrite Hr, Hc.
  set (it := match n_iter with NIterAuto => _ | NIter x => x end).
  assert (match transpose with
          | TransposeAuto => (m <? n)%nat
          | Transpose b => b
          end = false) as ->.
  { destruct Htr as [-> | [-> Hnm]]; [reflexivity|]. apply Nat.ltb_ge. exact Hnm. }
  rewrite randomized_svd_unfold. cbn zeta.
  destruct (sketch_shapes M m n (k + p) it norm g HM ltac:(lia))
    as (Q & g' & B & U & w & EQ & EB & EU & _ & Hw & SQ & SB & _).
  destruct (approx_range_finder_cols M m n (k + p) it norm g HM ltac:(lia))
    as (Qn & X & g1 & _ & EQ1 & SQ1).
  rewrite EQ in EQ1. injection EQ1 as EQX _. rewrite <- EQX, SQ in SQ1.
  injection SQ1 as Hwx.
  exists it, Q, g', B, U, w. rewrite EQ; cbn. rewrite EB; cbn. rewrite EU; cbn.
  repeat split; try assumption; try lia.
  destruct (svd B) as [[Uh s] Vh] eqn:Esvd. cbn [fst snd].
  apply (svd_product B). exact Esvd.
Qed.

(** A run of [randomized_svd_steps] on a [6 x 4] scaled partial
    identity. *)
Lemma randomized_svd_steps_witness :
  exists Q B U g',
    approx_range_finder (L := Scaled.linalg) (Scaled.full 6 4 Scaled.P1 3) (2 + 1) 1
      "none" 0 = Some (Q, g') /\
    matmul Q (svd B).1.1 = Some U /\
    shape B = (3, 4)%nat /\
    randomized_svd (L := Scaled.linalg) (Scaled.full 6 4 Scaled.P1 3) 2 1 (NIter 1)
      "none" TransposeAuto 0
    = Some (take_cols 2 U, take_vec 2 (svd B).1.2, getH (take_rows 2 (svd B).2), g').
Proof.
  destruct (randomized_svd_steps Scaled.linalg ScaledLaws.scaled_shape_laws
              ScaledLaws.scaled_matrix_laws
              (Scaled.full 6 4 Scaled.P1 3) 6 4 2 1 (NIter 1) "none" TransposeAuto 0)
    as (it & Q & g' & B & U & w & Hit & EQ & _ & _ & _ & Hw & _ & SB & _ & EU & E).
  - reflexivity.
  - lia.
  - right. split; [reflexivity | lia].
  - rewrite Hit in EQ. rewrite Hw in SB by (cbn; lia).
    exists Q, B, U, g'. repeat split; assumption.
Defined.

(** C3 as stated fails: with the default ten oversamples, one component
    of a [3 x 2] matrix asks for a sketch of size 11, but [Q] has two
    columns and [B = Q^H * M] is [2 x 2], not [11 x 2]. *)
Lemma sketch_smaller_than_sketch_size :
  exists Q U V g',
    randomized_svd (L := Sym.linalg) (Sym.Input "M" 3 2) 1 10 NIterAuto "auto"
      TransposeAuto 0
    = Some (U, Sym.VTerm (Sym.Mul (Sym.H Q) (Sym.Input "M" 3 2)) [1], V, g') /\
    Sym.shape Q = (3, 2)%nat /\
    Sym.shape (Sym.Mul (Sym.H Q) (Sym.Input "M" 3 2)) = (2, 2)%nat /\
    Sym.shape (Sym.Mul (Sym.H Q) (Sym.Input "M" 3 2)) <> (11, 2)%nat.
Proof.
  eexists _, _, _, _. split; [vm_compute; reflexivity|].
  repeat split; try reflexivity. vm_compute. discriminate.
Qed.

(** C4 (as amended).  For the normalizers ['LU'] and ['QR'], spelled in
    capitals as the code tests for them, each of the [n_iter] rounds of
    [approx_range_finder] multiplies by [A], normalizes, multiplies by
    [A^H] and normalizes again: with ['LU'] by the permuted lower factor
    of an LU factorization, with ['QR'] by the orthonormal factor of an
    economy QR factorization. *)
Theorem power_iteration_normalized (L : LinAlg) (A : Mat) :
  (forall Q,
     power_iteration A "LU" Q =
       AQ ← matmul A Q; AHQ ← matmul (getH A) (lu AQ); Some (lu AHQ)) /\
  (forall Q,
     power_iteration A "QR" Q =
       AQ ← matmul A Q; AHQ ← matmul (getH A) (qr AQ); Some (qr AHQ)) /\
  (forall size n_iter g,
     approx_range_finder A size n_iter "LU" g =
       '(Q0, g') ← randn g (Z.of_nat (cols A)) size;
       Qn ← for_range (range_len n_iter) (power_iteration A "LU") Q0;
       X ← matmul A Qn;
       Some (qr X, g')) /\
  (forall size n_iter g,
     approx_range_finder A size n_iter "QR" g =
       '(Q0, g') ← randn g (Z.of_nat (cols A)) size;
       Qn ← for_range (range_len n_iter) (power_iteration A "QR") Q0;
       X ← matmul A Qn;
       Some (qr X, g')).
Proof.
  split; [|split; [|split]].
  - intros Q. unfold power_iteration. cbn.
    destruct (matmul A Q) as [AQ|]; [|reflexivity]. cbn.
    destruct (matmul (getH A) (lu AQ)); reflexivity.
  - intros Q. unfold power_iteration. cbn.
    destruct (matmul A Q) as [AQ|]; [|reflexivity]. cbn.
    destruct (matmul (getH A) (qr AQ)); reflexivity.
  - intros. apply approx_range_finder_unfold. discriminate.
  - intros. apply approx_range_finder_unfold. discriminate.
Qed.

(** C4 as stated fails: with the normalizer spelled ['lu'] (or ['qr'])
    as in the spec, a round performs no product and no factorization.
    On a symbolic [3 x 2] matrix and one round the result is the QR
    factor of [A * Q0], not that of [A * lu(A^H * lu(A * Q0))], which
    is what ['LU'] gives. *)
Lemma lowercase_normalizer_not_applied :
  approx_range_finder (L := Sym.linalg) (Sym.Input "A" 3 2) 2 1 "lu" 0
    = Some (Sym.Qr (Sym.Mul (Sym.Input "A" 3 2) (Sym.Randn 0 2 2)), 1) /\
  approx_range_finder (L := Sym.linalg) (Sym.Input "A" 3 2) 2 1 "qr" 0
    = Some (Sym.Qr (Sym.Mul (Sym.Input "A" 3 2) (Sym.Randn 0 2 2)), 1) /\
  approx_range_finder (L := Sym.linalg) (Sym.Input "A" 3 2) 2 1 "LU" 0
    = Some (Sym.Qr (Sym.Mul (Sym.Input "A" 3 2)
                      (Sym.Lu (Sym.Mul (Sym.H (Sym.Input "A" 3 2))
                                 (Sym.Lu (Sym.Mul (Sym.Input "A" 3 2)
                                            (Sym.Randn 0 2 2)))))), 1) /\
  approx_range_finder (L := Sym.linalg) (Sym.Input "A" 3 2) 2 1 "lu" 0
    <> approx_range_finder (L := Sym.linalg) (Sym.Input "A" 3 2) 2 1 "LU" 0 /\
  power_iteration (L := Sym.linalg) (Sym.Input "A" 3 2) "lu" (Sym.Randn 0 2 2)
    = Some (Sym.Randn 0 2 2).
Proof.
  repeat split; try (vm_compute; reflexivity); vm_compute; discriminate.
Qed.

(** C5.  A normalizer that is none of ['auto'], ['none'], ['LU'], ['QR']
    makes every round of the loop leave [Q] as it is, without failing:
    the result for any [n_iter] is the result for [n_iter = 0], the
    economy QR factor of [A] times the matrix drawn at the start. *)
Theorem unknown_normalizer_skips_iterations (L : LinAlg) (A : Mat)
    (size n_iter : Z) (norm : string) g :
  norm <> "auto"%string -> norm <> "none"%string ->
  norm <> "LU"%string -> norm <> "QR"%string ->
  (forall Q, for_range (range_len n_iter) (power_iteration A norm) Q = Some Q) /\
  approx_range_finder A size n_iter norm g = approx_range_finder A size 0 norm g /\
  approx_range_finder A size n_iter norm g =
    '(Q0, g') ← randn g (Z.of_nat (cols A)) size;
    X ← matmul A Q0;
    Some (qr X, g').
Proof.
  intros Ha Hn Hl Hq.
  assert (forall k Q, for_range k (power_iteration A norm) Q = Some Q) as Hloop.
  { intros k Q. apply for_range_id. intros Q'.
    apply power_iteration_other; assumption. }
  split; [intros Q; apply Hloop|].
  rewrite !approx_range_finder_unfold by assumption.
  split.
  - destruct (randn g _ size) as [[Q0 g']|]; [|reflexivity]. cbn.
    rewrite !Hloop. reflexivity.
  - destruct (randn g _ size) as [[Q0 g']|]; [|reflexivity]. cbn.
    rewrite Hloop. reflexivity.
Qed.

(** A run of [unknown_normalizer_skips_iterations] with ['lu'] and
    seven iterations. *)
Lemma unknown_normalizer_skips_iterations_witness :
  approx_range_finder (L := Sym.linalg) (Sym.Input "A" 4 3) 2 7 "lu" 0
  = approx_range_finder (L := Sym.linalg) (Sym.Input "A" 4 3) 2 0 "lu" 0.
Proof.
  apply (unknown_normalizer_skips_iterations Sym.linalg (Sym.Input "A" 4 3)
           2 7 "lu" 0); discriminate.
Defined.

(** C6.  With the normalizer ['auto'], [approx_range_finder] runs its
    rounds without normalization, as with ['none'], when [n_iter <= 2],
    and with LU normalization after each of the two products, as with
    ['LU'], otherwise; the choice looks at [n_iter] only.  Through
    [randomized_svd] the range finder is run in the mode chosen from
    the resolved number of iterations, which is 7 or 4 when [n_iter] is
    ['auto'], so that ['LU'] is chosen. *)
Theorem auto_normalizer (L : LinAlg) :
  (forall A size n_iter g,
     approx_range_finder A size n_iter "auto" g =
       '(Q0, g') ← randn g (Z.of_nat (cols A)) size;
       Qn ← for_range (range_len n_iter)
              (if n_iter <=? 2
               then fun Q => AQ ← matmul A Q; matmul (getH A) AQ
               else fun Q => AQ ← matmul A Q;
                             AHQ ← matmul (getH A) (lu AQ);
                             Some (lu AHQ))
              Q0;
       X ← matmul A Qn;
       Some (qr X, g')) /\
  (forall A size n_iter g,
     approx_range_finder A size n_iter "auto" g =
     approx_range_finder A size n_iter
       (if n_iter <=? 2 then "none"%string else "LU"%string) g) /\
  (forall M k p n transpose g,
     randomized_svd M k p (NIter n) "auto" transpose g =
       if match transpose with
          | TransposeAuto => (rows M <? cols M)%nat
          | Transpose b => b
          end
       then '(Q, g') ← approx_range_finder (getT M) (k + p) n
                         (if n <=? 2 then "none"%string else "LU"%string) g;
            B ← matmul (getH Q) (getT M);
            U ← matmul Q (svd B).1.1;
            Some (getT (take_rows k (svd B).2), take_vec k (svd B).1.2,
                  conj (take_cols k U), g')
       else '(Q, g') ← approx_range_finder M (k + p) n
                         (if n <=? 2 then "none"%string else "LU"%string) g;
            B ← matmul (getH Q) M;
            U ← matmul Q (svd B).1.1;
            Some (take_cols k U, take_vec k (svd B).1.2,
                  getH (take_rows k (svd B).2), g')) /\
  (forall M k p transpose g,
     randomized_svd M k p NIterAuto "auto" transpose g =
       if match transpose with
          | TransposeAuto => (rows M <? cols M)%nat
          | Transpose b => b
          end
       then '(Q, g') ← approx_range_finder (getT M) (k + p) (if int_lt_float k
                 (fmul tenth (float_of_int (Z.of_nat (Nat.min (rows M) (cols M)))))
            then 7 else 4) "LU" g;
            B ← matmul (getH Q) (getT M);
            U ← matmul Q (svd B).1.1;
            Some (getT (take_rows k (svd B).2), take_vec k (svd B).1.2,
                  conj (take_cols k U), g')
       else '(Q, g') ← approx_range_finder M (k + p) (if int_lt_float k
                 (fmul tenth (float_of_int (Z.of_nat (Nat.min (rows M) (cols M)))))
            then 7 else 4) "LU" g;
            B ← matmul (getH Q) M;
            U ← matmul Q (svd B).1.1;
            Some (take_cols k U, take_vec k (svd B).1.2,
                  getH (take_rows k (svd B).2), g')).
Proof.
  split; [|split; [|split]].
  - intros. rewrite approx_range_finder_auto.
    rewrite approx_range_finder_unfold by (destruct (n_iter <=? 2); discriminate).
    destruct (randn g _ size) as [[Q0 g']|]; [|reflexivity]. cbn.
    f_equal. destruct (n_iter <=? 2); apply for_range_ext; intros Q.
    + apply power_iteration_none.
    + apply power_iteration_LU.
  - intros. apply approx_range_finder_auto.
  - intros. rewrite randomized_svd_pipeline. cbn zeta.
    rewrite !approx_range_finder_auto.
    destruct (match transpose with TransposeAuto => _ | Transpose b => b end);
      reflexivity.
  - intros. rewrite randomized_svd_pipeline. cbn zeta.
    rewrite !approx_range_finder_auto.
    destruct (match transpose with TransposeAuto => _ | Transpose b => b end);
      destruct (int_lt_float _ _); reflexivity.
Qed.

(** Past the sizes that an array can have, the float product rounds
    away the difference: for [min(M.shape) = 10 * 2^52 + 1] and
    [n_components = 2^52] the guard is false although
    [10 * n_components < min(M.shape)]. *)
Example tenth_guard_beyond_2_52 :
  int_lt_float (2 ^ 52) (fmul tenth (float_of_int (10 * 2 ^ 52 + 1))) = false /\
  (10 * 2 ^ 52 <? 10 * 2 ^ 52 + 1) = true.
Proof. split; vm_compute; reflexivity. Qed.

(** C7.  With [n_iter='auto'], [randomized_svd] runs the range finder
    with 7 iterations if [n_components < 0.1 * min(m, n)], that is if
    [10 * n_components < min(m, n)], and with 4 otherwise: the number
    depends on [n_components] and the shape of [M] only.  The code
    evaluates the guard in binary64; it agrees with the exact one for
    every [min(m, n) <= 2^52], which covers any array that fits in
    memory. *)
Theorem n_iter_auto (L : LinAlg) (M : Mat) (m n : nat) (k p : Z) norm transpose g :
  shape M = (m, n) -> Z.of_nat (Nat.min m n) <= 2 ^ 52 ->
  randomized_svd M k p NIterAuto norm transpose g =
    (if match transpose with
        | TransposeAuto => (rows M <? cols M)%nat
        | Transpose b => b
        end
     then '(Q, g') ← approx_range_finder (getT M) (k + p) (if 10 * k <? Z.of_nat (Nat.min m n) then 7 else 4) norm g;
          B ← matmul (getH Q) (getT M);
          U ← matmul Q (svd B).1.1;
          Some (getT (take_rows k (svd B).2), take_vec k (svd B).1.2,
                conj (take_cols k U), g')
     else '(Q, g') ← approx_range_finder M (k + p) (if 10 * k <? Z.of_nat (Nat.min m n) then 7 else 4) norm g;
          B ← matmul (getH Q) M;
          U ← matmul Q (svd B).1.1;
          Some (take_cols k U, take_vec k (svd B).1.2,
                getH (take_rows k (svd B).2), g')) /\
  randomized_svd M k p NIterAuto norm transpose g =
  randomized_svd M k p
    (NIter (if 10 * k <? Z.of_nat (Nat.min m n) then 7 else 4)) norm transpose g.
Proof.
  intros HM Hmin.
  assert (int_lt_float k
            (fmul tenth (float_of_int (Z.of_nat (Nat.min (rows M) (cols M)))))
          = (10 * k <? Z.of_nat (Nat.min m n))) as Hguard.
  { unfold rows, cols. rewrite HM. cbn [fst snd]. apply tenth_guard_exact. lia. }
  split.
  - rewrite randomized_svd_pipeline. cbn zeta. rewrite Hguard.
    destruct (match transpose with TransposeAuto => _ | Transpose b => b end);
      reflexivity.
  - unfold randomized_svd, asmatrix. cbn zeta. rewrite Hguard. reflexivity.
Qed.

(** A run of [n_iter_auto]: two components of a [30 x 50] matrix give
    7 iterations, three give 4. *)
Lemma n_iter_auto_witness :
  randomized_svd (L := Sym.linalg) (Sym.Input "M" 30 50) 2 10 NIterAuto "none"
    (Transpose false) 0
  = randomized_svd (L := Sym.linalg) (Sym.Input "M" 30 50) 2 10 (NIter 7) "none"
      (Transpose false) 0 /\
  randomized_svd (L := Sym.linalg) (Sym.Input "M" 30 50) 3 10 NIterAuto "none"
    (Transpose false) 0
  = randomized_svd (L := Sym.linalg) (Sym.Input "M" 30 50) 3 10 (NIter 4) "none"
      (Transpose false) 0.
Proof.
  split.
  - destruct (n_iter_auto Sym.linalg (Sym.Input "M" 30 50) 30 50 2 10 "none"
                (Transpose false) 0) as [_ H]; [reflexivity | cbn; lia | exact H].
  - destruct (n_iter_auto Sym.linalg (Sym.Input "M" 30 50) 30 50 3 10 "none"
                (Transpose false) 0) as [_ H]; [reflexivity | cbn; lia | exact H].
Defined.

(** C8.  With [transpose='auto'], [randomized_svd] transposes exactly
    when [M] has fewer rows than columns.  A transposed run works on
    [M.T]: the range finder, the sketch and its SVD are those of [M.T],
    and the result is [(Vh[:k, :].T, s[:k], conj(U[:, :k]))], where a
    plain run returns [(U[:, :k], s[:k], Vh[:k, :].H)].  It is the
    plain run on [M.T] with its two matrix factors exchanged and
    conjugated: the result is expressed for [M] itself. *)
Theorem transpose_auto (L : LinAlg) (SL : ShapeLaws L) (ML : MatrixLaws L)
    (M : Mat) (k p : Z) n_iter norm g :
  (forall transpose,
     randomized_svd M k p n_iter norm transpose g =
       if match transpose with
          | TransposeAuto => (rows M <? cols M)%nat
          | Transpose b => b
          end
       then '(Q, g') ← approx_range_finder (getT M) (k + p) (match n_iter with
             | NIterAuto =>
                 if int_lt_float k
                      (fmul tenth
                         (float_of_int (Z.of_nat (Nat.min (rows M) (cols M)))))
                 then 7 else 4
             | NIter x => x
             end) norm g;
            B ← matmul (getH Q) (getT M);
            U ← matmul Q (svd B).1.1;
            Some (getT (take_rows k (svd B).2), take_vec k (svd B).1.2,
                  conj (take_cols k U), g')
       else '(Q, g') ← approx_range_finder M (k + p) (match n_iter with
             | NIterAuto =>
                 if int_lt_float k
                      (fmul tenth
                         (float_of_int (Z.of_nat (Nat.min (rows M) (cols M)))))
                 then 7 else 4
             | NIter x => x
             end) norm g;
            B ← matmul (getH Q) M;
            U ← matmul Q (svd B).1.1;
            Some (take_cols k U, take_vec k (svd B).1.2,
                  getH (take_rows k (svd B).2), g')) /\
  randomized_svd M k p n_iter norm TransposeAuto g =
    randomized_svd M k p n_iter norm (Transpose (rows M <? cols M)%nat) g /\
  randomized_svd M k p n_iter norm (Transpose true) g =
    (fun '(U, s, V, g') => (conj V, s, conj U, g')) <$>
      randomized_svd (getT M) k p n_iter norm (Transpose false) g.
Proof.
  split; [|split; [destruct n_iter; reflexivity|]].
  { intros transpose. rewrite randomized_svd_pipeline. cbn zeta.
    destruct (match transpose with TransposeAuto => _ | Transpose b => b end);
      reflexivity. }
  rewrite randomized_svd_resolve.
  rewrite (randomized_svd_resolve (getT M)).
  assert (Nat.min (rows (getT M)) (cols (getT M)) = Nat.min (rows M) (cols M)) as ->.
  { unfold rows at 1, cols at 1. rewrite getT_shape. cbn. apply Nat.min_comm. }
  set (it := match n_iter with NIterAuto => _ | NIter x => x end).
  rewrite !randomized_svd_unfold. cbn zeta.
  destruct (approx_range_finder _ _ _ _ _) as [[Q g']|]; [|reflexivity]. cbn.
  destruct (matmul (getH Q) _) as [B|]; [|reflexivity]. cbn.
  destruct (matmul Q _) as [U|]; [|reflexivity]. cbn.
  rewrite conj_getH. reflexivity.
Qed.

(** A run of [transpose_auto] on the [3 x 5] scaled partial identity
    [2i * E]. *)
Lemma transpose_auto_witness :
  randomized_svd (L := Scaled.linalg) (Scaled.full 3 5 Scaled.Pi 2) 2 1
    (NIter 1) "QR" TransposeAuto 42
  = (fun '(U, s, V, g') => (Scaled.conj V, s, Scaled.conj U, g')) <$>
      randomized_svd (L := Scaled.linalg) (Scaled.full 5 3 Scaled.Pi 2) 2 1
        (NIter 1) "QR" (Transpose false) 42.
Proof.
  destruct (transpose_auto Scaled.linalg ScaledLaws.scaled_shape_laws
              ScaledLaws.scaled_matrix_laws (Scaled.full 3 5 Scaled.Pi 2) 2 1
              (NIter 1) "QR" 42) as [_ [Ha Ht]].
  rewrite Ha. exact Ht.
Defined.

(** ** Generators and buffers *)

Section Effects.
Context {L : LinAlg}.

(** A call on an object that is not a 2-D array raises at once. *)
Lemma approx_range_finder_py_no_array w A size n_iter norm rgen :
  snd (read A w) = None ->
  approx_range_finder_py A size n_iter norm rgen w = (w, None).
Proof.
  intros H. unfold approx_range_finder_py, py_asmatrix, py_shape, py_bind, py_ret.
  unfold read in *. cbn in *. rewrite H. reflexivity.
Qed.

Lemma randomized_svd_py_no_array w M k p n_iter norm transpose rgen :
  snd (read M w) = None ->
  randomized_svd_py M k p n_iter norm transpose rgen w = (w, None).
Proof.
  intros H. unfold randomized_svd_py, py_asmatrix, py_shape, py_bind, py_ret.
  unfold read in *. cbn in *. rewrite H. reflexivity.
Qed.

Lemma read_extends w w' A :
  extends w w' -> (snd (read A w) = None -> w' = w) ->
  snd (read A w') = snd (read A w).
Proof.
  intros Hext Hnone. destruct (snd (read A w)) as [X|] eqn:E.
  - apply (holds_extends w w' A X); assumption.
  - rewrite (Hnone eq_refl). exact E.
Qed.

(** Two runs that agree on the matrix read and on the state of the
    generator used agree on what they return. *)
Lemma tracks_agree {T V} (rel : World -> T -> V -> Prop) h
    (c1 c2 : Py T) w1 w2 (v : option (V * RGen)) :
  tracks rel h c1 w1 v -> tracks rel h c2 w2 v ->
  same_generators_except h w1 (fst (c1 w1)) /\
  same_generators_except h w2 (fst (c2 w2)) /\
  match snd (c1 w1), snd (c2 w2) with
  | Some t1, Some t2 =>
      exists x, rel (fst (c1 w1)) t1 x /\ rel (fst (c2 w2)) t2 x /\
                generators (fst (c1 w1)) h = generators (fst (c2 w2)) h
  | None, None => True
  | _, _ => False
  end.
Proof.
  intros (_ & G1 & R1) (_ & G2 & R2). split; [exact G1|]. split; [exact G2|].
  destruct v as [[x g']|].
  - destruct R1 as (t1 & -> & H1 & E1), R2 as (t2 & -> & H2 & E2).
    exists x. repeat split; try assumption. congruence.
  - rewrite R1, R2. exact I.
Qed.

End Effects.

(** C9 (as amended).  Each entry point takes the random generator as a
    parameter that, when left out, is the generator [np.random] of the
    process.  Two runs on the same matrix, from the same state of the
    generator used (the one passed, or [np.random]), both raise or
    both return, with the same values and the same final state of that
    generator; and no generator other than that one is changed. *)
Theorem generator_determines_run (L : LinAlg) (w1 w2 : World) (A1 A2 : array)
    (Am : Mat) (size n_iter : Z) (k p : Z) it norm transpose (rgen : option nat) :
  holds w1 A1 Am -> holds w2 A2 Am ->
  generators w1 (default np_random rgen) = generators w2 (default np_random rgen) ->
  (same_generators_except (default np_random rgen) w1
     (fst (approx_range_finder_py A1 size n_iter norm rgen w1)) /\
   same_generators_except (default np_random rgen) w2
     (fst (approx_range_finder_py A2 size n_iter norm rgen w2)) /\
   match snd (approx_range_finder_py A1 size n_iter norm rgen w1),
         snd (approx_range_finder_py A2 size n_iter norm rgen w2) with
   | Some Q1, Some Q2 =>
       exists Q,
         holds (fst (approx_range_finder_py A1 size n_iter norm rgen w1)) Q1 Q /\
         holds (fst (approx_range_finder_py A2 size n_iter norm rgen w2)) Q2 Q /\
         generators (fst (approx_range_finder_py A1 size n_iter norm rgen w1))
                    (default np_random rgen)
         = generators (fst (approx_range_finder_py A2 size n_iter norm rgen w2))
                      (default np_random rgen)
   | None, None => True
   | _, _ => False
   end) /\
  (same_generators_except (default np_random rgen) w1
     (fst (randomized_svd_py A1 k p it norm transpose rgen w1)) /\
   same_generators_except (default np_random rgen) w2
     (fst (randomized_svd_py A2 k p it norm transpose rgen w2)) /\
   match snd (randomized_svd_py A1 k p it norm transpose rgen w1),
         snd (randomized_svd_py A2 k p it norm transpose rgen w2) with
   | Some t1, Some t2 =>
       exists x,
         holds3 (fst (randomized_svd_py A1 k p it norm transpose rgen w1)) t1 x /\
         holds3 (fst (randomized_svd_py A2 k p it norm transpose rgen w2)) t2 x /\
         generators (fst (randomized_svd_py A1 k p it norm transpose rgen w1))
                    (default np_random rgen)
         = generators (fst (randomized_svd_py A2 k p it norm transpose rgen w2))
                      (default np_random rgen)
   | None, None => True
   | _, _ => False
   end).
Proof.
  intros H1 H2 Hg. split.
  - apply (tracks_agree holds _ _ _ _ _
             (approx_range_finder Am size n_iter norm
                (generators w1 (default np_random rgen)))).
    + apply tracks_approx_range_finder. exact H1.
    + rewrite Hg. apply tracks_approx_range_finder. exact H2.
  - apply (tracks_agree holds3 _ _ _ _ _
             (randomized_svd Am k p it norm transpose
                (generators w1 (default np_random rgen)))).
    + apply tracks_randomized_svd. exact H1.
    + rewrite Hg. apply tracks_randomized_svd. exact H2.
Qed.

(** C10.  Neither function writes to a buffer that exists when it is
    called: after the call every such buffer is where it was with the
    content it had, whatever the arguments and whether the call returns
    or raises; in particular the input matrix reads as before.  What
    the call writes, it writes to buffers it has added. *)
Theorem inputs_not_mutated (L : LinAlg) (w : World) (A : array)
    (size n_iter : Z) (k p : Z) it norm transpose (rgen : option nat) :
  (extends w (fst (approx_range_finder_py A size n_iter norm rgen w)) /\
   snd (read A (fst (approx_range_finder_py A size n_iter norm rgen w)))
   = snd (read A w)) /\
  (extends w (fst (randomized_svd_py A k p it norm transpose rgen w)) /\
   snd (read A (fst (randomized_svd_py A k p it norm transpose rgen w)))
   = snd (read A w)).
Proof.
  split.
  - assert (extends w (fst (approx_range_finder_py A size n_iter norm rgen w))) as E.
    { destruct (snd (read A w)) as [X|] eqn:HA.
      - apply (tracks_approx_range_finder w A X size n_iter norm rgen HA).
      - rewrite approx_range_finder_py_no_array by exact HA. apply extends_refl. }
    split; [exact E|]. apply read_extends; [exact E|].
    intros HA. rewrite approx_range_finder_py_no_array by exact HA. reflexivity.
  - assert (extends w (fst (randomized_svd_py A k p it norm transpose rgen w))) as E.
    { destruct (snd (read A w)) as [X|] eqn:HA.
      - apply (tracks_randomized_svd w A X k p it norm transpose rgen HA).
      - rewrite randomized_svd_py_no_array by exact HA. apply extends_refl. }
    split; [exact E|]. apply read_extends; [exact E|].
    intros HA. rewrite randomized_svd_py_no_array by exact HA. reflexivity.
Qed.

(** A run of [generator_determines_run]: the same symbolic matrix at
    two addresses of two worlds whose generators agree at handle 3. *)
Lemma generator_determines_run_witness :
  same_generators_except 3
    (sym_world (fun _ => 5) [Sym.Input "A" 3 2])
    (fst (approx_range_finder_py (sym_array 0) 2 1 "LU" (Some 3%nat)
            (sym_world (fun _ => 5) [Sym.Input "A" 3 2]))).
Proof.
  destruct (generator_determines_run Sym.linalg
           (sym_world (fun _ => 5) [Sym.Input "A" 3 2])
           (sym_world (fun h => if Nat.eqb h 3 then 5 else 9)
              [Sym.Input "B" 1 1; Sym.Input "A" 3 2])
           (sym_array 0) (sym_array 1) (Sym.Input "A" 3 2)
           2 1 1 1 (NIter 1) "LU" TransposeAuto (Some 3%nat))
    as [[H _] _].
  - reflexivity.
  - reflexivity.
  - reflexivity.
  - exact H.
Defined.

(** C9 as stated fails: when the caller leaves [rgen] out, the call
    draws from [np.random] and leaves it in another state, so that the
    same call made again on the same matrix returns the QR factor of a
    different product. *)
Lemma default_generator_is_shared :
  generators
    (fst (approx_range_finder_py (sym_array 0) 2 0 "none" None
            (sym_world (fun _ => 0) [Sym.Input "A" 3 2])))
    np_random = 1 /\
  generators (sym_world (fun _ => 0) [Sym.Input "A" 3 2]) np_random = 0 /\
  exists Q1 Q2,
    snd (approx_range_finder_py (sym_array 0) 2 0 "none" None
           (sym_world (fun _ => 0) [Sym.Input "A" 3 2]))
    = Some Q1 /\
    snd (approx_range_finder_py (sym_array 0) 2 0 "none" None
           (fst (approx_range_finder_py (sym_array 0) 2 0 "none" None
                   (sym_world (fun _ => 0) [Sym.Input "A" 3 2]))))
    = Some Q2 /\
    holds
      (fst (approx_range_finder_py (sym_array 0) 2 0 "none" None
           (fst (approx_range_finder_py (sym_array 0) 2 0 "none" None
                   (sym_world (fun _ => 0) [Sym.Input "A" 3 2])))))
      Q1 (Sym.Qr (Sym.Mul (Sym.Input "A" 3 2) (Sym.Randn 0 2 2))) /\
    holds
      (fst (approx_range_finder_py (sym_array 0) 2 0 "none" None
           (fst (approx_range_finder_py (sym_array 0) 2 0 "none" None
                   (sym_world (fun _ => 0) [Sym.Input "A" 3 2])))))
      Q2 (Sym.Qr (Sym.Mul (Sym.Input "A" 3 2) (Sym.Randn 1 2 2))).
Proof.
  split; [vm_compute; reflexivity|]. split; [reflexivity|].
  eexists _, _. split; [vm_compute; reflexivity|].
  split; [vm_compute; reflexivity|].
  split; vm_compute; reflexivity.
Qed.

(** * Further properties of the two functions *)

(** ** What a returned result is made of, and what is drawn *)

Section Returns.
Context {L : LinAlg}.

(** What a returned result is made of: one draw, the loop, the product
    by [A] and the economy QR factor. *)
Lemma approx_range_finder_Some_inv A size n_iter norm g Q g' :
  approx_range_finder A size n_iter norm g = Some (Q, g') ->
  exists Q0 Qn X,
    randn g (Z.of_nat (cols A)) size = Some (Q0, g') /\
    matmul A Qn = Some X /\ Q = qr X.
Proof.
  unfold approx_range_finder, asmatrix.
  destruct (randn g _ size) as [[Q0 g1]|] eqn:E0; [|discriminate]. cbn.
  destruct (for_range _ _ Q0) as [Qn|]; [|discriminate]. cbn.
  destruct (matmul A Qn) as [X|] eqn:EX; [|discriminate]. cbn.
  intros H. injection H as <- <-. exists Q0, Qn, X. repeat split; assumption.
Qed.

Lemma randomized_svd_Some_inv M k p n_iter norm transpose g U s V g' :
  randomized_svd M k p n_iter norm transpose g = Some (U, s, V, g') ->
  exists it Q B Ul,
    approx_range_finder
      (if match transpose with
          | TransposeAuto => (rows M <? cols M)%nat
          | Transpose b => b
          end then getT M else M) (k + p) it norm g = Some (Q, g') /\
    matmul (getH Q)
      (if match transpose with
          | TransposeAuto => (rows M <? cols M)%nat
          | Transpose b => b
          end then getT M else M) = Some B /\
    matmul Q (svd B).1.1 = Some Ul /\
    (U, s, V) =
      if match transpose with
         | TransposeAuto => (rows M <? cols M)%nat
         | Transpose b => b
         end
      then (getT (take_rows k (svd B).2), take_vec k (svd B).1.2,
            conj (take_cols k Ul))
      else (take_cols k Ul, take_vec k (svd B).1.2,
            getH (take_rows k (svd B).2)).
Proof.
  rewrite randomized_svd_resolve, randomized_svd_unfold. cbn zeta.
  set (b := match transpose with TransposeAuto => _ | Transpose b => b end).
  set (it := match n_iter with NIterAuto => _ | NIter x => x end).
  destruct (approx_range_finder _ _ it _ _) as [[Q g1]|] eqn:EQ; [|discriminate]. cbn.
  destruct (matmul (getH Q) _) as [B|] eqn:EB; [|discriminate]. cbn.
  destruct (matmul Q _) as [Ul|] eqn:EU; [|discriminate]. cbn.
  intros H. exists it, Q, B, Ul.
  destruct b; injection H as <- <- <- <-; repeat split; assumption.
Qed.

End Returns.

(** X3.  A zero or negative [n_iter] is accepted and means no power
    iteration, whatever the normalizer (['LU'] and ['QR'] included):
    the result is the economy QR factor of [A * Q0] for the matrix
    [Q0] drawn at the start. *)
Theorem nonpositive_n_iter_no_iteration (L : LinAlg) (A : Mat)
    (size n_iter : Z) norm g :
  n_iter <= 0 ->
  approx_range_finder A size n_iter norm g =
    '(Q0, g') ← randn g (Z.of_nat (cols A)) size;
    X ← matmul A Q0;
    Some (qr X, g').
Proof.
  intros Hn. unfold approx_range_finder, asmatrix, range_len.
  replace (Z.to_nat n_iter) with 0%nat by lia. cbn [for_range].
  destruct (randn g _ size) as [[Q0 g']|]; [|reflexivity]. cbn.
  destruct (matmul A Q0); reflexivity.
Qed.

(** Minus five iterations with QR normalization. *)
Lemma nonpositive_n_iter_no_iteration_witness :
  approx_range_finder (L := Sym.linalg) (Sym.Input "A" 4 3) 2 (-5) "QR" 0
  = Some (Sym.Qr (Sym.Mul (Sym.Input "A" 4 3) (Sym.Randn 0 3 2)), 1).
Proof.
  rewrite (nonpositive_n_iter_no_iteration Sym.linalg (Sym.Input "A" 4 3) 2 (-5) "QR" 0)
    by lia.
  reflexivity.
Defined.

(** X4.  [approx_range_finder] consumes exactly one draw,
    [rgen.randn(A.shape[1], size)]: the state in which it leaves the
    generator is the state after that draw, so that calls that differ
    only in [n_iter] and in the normalizer leave the generator in the
    same state. *)
Theorem approx_range_finder_one_draw (L : LinAlg) (A : Mat) (size : Z)
    n1 norm1 n2 norm2 g Q1 g1 Q2 g2 :
  approx_range_finder A size n1 norm1 g = Some (Q1, g1) ->
  approx_range_finder A size n2 norm2 g = Some (Q2, g2) ->
  g1 = g2 /\ exists Q0, randn g (Z.of_nat (cols A)) size = Some (Q0, g1).
Proof.
  intros E1 E2.
  apply approx_range_finder_Some_inv in E1 as (Q0 & _ & _ & E1 & _).
  apply approx_range_finder_Some_inv in E2 as (Q0' & _ & _ & E2 & _).
  split; [congruence|]. exists Q0. exact E1.
Qed.

(** No iteration without normalizer against seven with LU. *)
Lemma approx_range_finder_one_draw_witness :
  exists Q0, Scaled.randn 42 3 2 = Some (Q0, Scaled.next 42).
Proof.
  destruct (approx_range_finder_one_draw Scaled.linalg (Scaled.full 5 3 Scaled.P1 2) 2
              0 "none" 7 "LU" 42
              (Scaled.full 5 2 Scaled.P1 1) (Scaled.next 42)
              (Scaled.full 5 2 Scaled.P1 1) (Scaled.next 42))
    as [_ H].
  - vm_compute. reflexivity.
  - vm_compute. reflexivity.
  - exact H.
Defined.

(** X5.  [randomized_svd] consumes exactly one draw, of shape
    [(d, n_components + n_oversamples)] where [d] is the number of
    columns of the matrix worked on: the columns of [M], or its rows
    when the run transposes.  Neither [n_iter], the normalizer nor the
    split of the sketch size into components and oversamples changes
    the state in which the generator is left. *)
Theorem randomized_svd_one_draw (L : LinAlg) (SL : ShapeLaws L) (M : Mat)
    (k p : Z) n_iter norm transpose g U s V g' :
  randomized_svd M k p n_iter norm transpose g = Some (U, s, V, g') ->
  exists Q0,
    randn g
      (Z.of_nat (if match transpose with
                    | TransposeAuto => (rows M <? cols M)%nat
                    | Transpose b => b
                    end then rows M else cols M))
      (k + p) = Some (Q0, g').
Proof.
  intros E. apply randomized_svd_Some_inv in E as (it & Q & B & Ul & EQ & _).
  apply approx_range_finder_Some_inv in EQ as (Q0 & _ & _ & E0 & _).
  exists Q0. rewrite <- E0. f_equal. f_equal.
  destruct (match transpose with TransposeAuto => _ | Transpose b => b end);
    [|reflexivity].
  unfold cols at 1. rewrite getT_shape. reflexivity.
Qed.

(** A [3 x 5] matrix, transposed by ['auto']: the draw has three rows. *)
Lemma randomized_svd_one_draw_witness :
  exists Q0, Scaled.randn 42 3 (2 + 1) = Some (Q0, Scaled.next 42).
Proof.
  apply (randomized_svd_one_draw Scaled.linalg ScaledLaws.scaled_shape_laws
           (Scaled.full 3 5 Scaled.Pi 2) 2 1 NIterAuto "auto" TransposeAuto 42
           (Scaled.SMat 2 1 0 Scaled.P1 1) (Scaled.SVec 2 0 2)
           (Scaled.SMat 2 3 0 Scaled.Pmi 1) (Scaled.next 42)).
  vm_compute. reflexivity.
Defined.

(** ** How many columns and how many triplets *)

Section Counts.
Context {L : LinAlg} {SL : ShapeLaws L}.

Local Open Scope nat_scope.

(** The sketch of [randomized_svd] has exactly
    [min(sketch_size, m, n)] singular triplets, of which the slices
    [[:n_components]] keep [py_stop n_components] of them. *)
Lemma randomized_svd_counts M m n (k p : Z) n_iter norm transpose g :
  shape M = (m, n) -> (0 <= k + p)%Z ->
  exists U s V g',
    randomized_svd M k p n_iter norm transpose g = Some (U, s, V, g') /\
    shape U = (m, py_stop k (Nat.min (Z.to_nat (k + p)) (Nat.min m n))) /\
    length (entries s) = py_stop k (Nat.min (Z.to_nat (k + p)) (Nat.min m n)) /\
    shape V = (n, py_stop k (Nat.min (Z.to_nat (k + p)) (Nat.min m n))).
Proof.
  intros HM Hkp.
  rewrite randomized_svd_resolve, randomized_svd_unfold. cbn zeta.
  pose proof HM as HM0. apply shape_rows_cols in HM0 as [Hr Hc]. rewrite Hr, Hc.
  set (b := match transpose with TransposeAuto => _ | Transpose b => b end).
  set (it := match n_iter with NIterAuto => _ | NIter x => x end).
  set (M' := if b then getT M else M).
  set (m' := if b then n else m). set (n' := if b then m else n).
  assert (shape M' = (m', n')) as HM'.
  { unfold M', m', n'. destruct b; [rewrite getT_shape, Hr, Hc|]; auto. }
  destruct (sketch_shapes M' m' n' (k + p) it norm g HM' Hkp)
    as (Q & g' & B & Ul & w & EQ & EB & EU & _ & Hw & SQ & SB & SUh & Ls & SVh & SUl).
  rewrite EQ; cbn. rewrite EB; cbn. rewrite EU; cbn.
  assert (Nat.min w n' = Nat.min (Z.to_nat (k + p)) (Nat.min m n)) as HK
    by (unfold m', n' in *; destruct b; lia).
  rewrite HK in *.
  set (c := py_stop k _) in *.
  assert (shape (take_cols k Ul) = (m', c)) as SUk.
  { rewrite take_cols_shape. apply shape_rows_cols in SUl as [-> ->]. reflexivity. }
  assert (shape (take_rows k (svd B).2) = (c, n')) as SVk.
  { rewrite take_rows_shape. apply shape_rows_cols in SVh as [-> ->]. reflexivity. }
  assert (length (entries (take_vec k (svd B).1.2)) = c) as Lk.
  { rewrite take_vec_length, Ls. reflexivity. }
  destruct b; cbn [m' n'] in *; eexists _, _, _, _; (split; [reflexivity|]);
    repeat split; try assumption.
  - rewrite getT_shape. apply shape_rows_cols in SVk as [-> ->]. reflexivity.
  - rewrite conj_shape. exact SUk.
  - rewrite getH_shape. apply shape_rows_cols in SVk as [-> ->]. reflexivity.
Qed.

End Counts.

(** X6.  The number of columns of the basis returned by
    [approx_range_finder], for any [size >= 0], also above
    [min(m, n)]: when at least one round is normalized (by ['LU'] or
    ['QR'], or by ['auto'] with [n_iter > 2]) the basis has
    [min(size, m, n)] columns; otherwise (no round, ['none'], ['auto']
    with [n_iter <= 2], or an unknown normalizer) it has
    [min(m, size)]. *)
Theorem approx_range_finder_columns (L : LinAlg) (SL : ShapeLaws L)
    (A : Mat) (m n : nat) (size n_iter : Z) norm g :
  shape A = (m, n) -> 0 <= size ->
  exists Q g',
    approx_range_finder A size n_iter norm g = Some (Q, g') /\
    shape Q =
      (m,
       if (1 <=? n_iter) &&
          (String.eqb norm "LU" || String.eqb norm "QR" ||
           (String.eqb norm "auto" && (2 <? n_iter)))
       then Nat.min (Z.to_nat size) (Nat.min m n)
       else Nat.min m (Z.to_nat size)).
Proof.
  intros HA Hsize.
  assert (cols A = n) as HcA by (apply shape_rows_cols in HA as [_ ?]; assumption).
  destruct (randn_is_Some g (Z.of_nat n) size) as [[Q0 g'] E0]; [lia | lia |].
  pose proof (randn_Some _ _ _ _ _ E0) as (_ & _ & S0).
  rewrite Nat2Z.id in S0. apply shape_rows_cols in S0 as [R0 C0].
  unfold approx_range_finder, asmatrix. rewrite HcA, E0; cbn.
  set (norm' := if String.eqb norm "auto" then _ else _).
  destruct (for_range_cols A norm' (range_len n_iter) Q0 m n HA R0)
    as (Qn & En & Rn & Cn).
  rewrite En; cbn.
  assert (shape Qn = (n, cols Qn)) as Sn by (apply shape_rows_cols; auto).
  destruct (matmul_shape A Qn m n (cols Qn) HA Sn) as (X & EX & SX).
  rewrite EX; cbn. exists (qr X), g'. split; [reflexivity|].
  rewrite qr_shape. apply shape_rows_cols in SX as [-> ->]. f_equal.
  rewrite Cn, C0.
  assert ((0 <? range_len n_iter)%nat = (1 <=? n_iter)) as ->.
  { unfold range_len. destruct (Z.leb_spec 1 n_iter), (Nat.ltb_spec 0 (Z.to_nat n_iter));
      try reflexivity; lia. }
  assert ((String.eqb norm' "LU" || String.eqb norm' "QR")
          = (String.eqb norm "LU" || String.eqb norm "QR" ||
             (String.eqb norm "auto" && (2 <? n_iter)))) as ->.
  { unfold norm'. destruct (String.eqb norm "auto") eqn:Ea.
    - apply String.eqb_eq in Ea as ->. cbn.
      destruct (Z.leb_spec n_iter 2), (Z.ltb_spec 2 n_iter); try reflexivity; lia.
    - rewrite orb_false_r. reflexivity. }
  rewrite andb_comm.
  destruct ((1 <=? n_iter) && _); lia.
Qed.

(** A sketch of size 11 on a [3 x 2] matrix: two columns after LU
    rounds, three without normalization. *)
Lemma approx_range_finder_columns_witness :
  (exists Q g',
     approx_range_finder (L := Sym.linalg) (Sym.Input "A" 3 2) 11 4 "LU" 0
       = Some (Q, g') /\ shape Q = (3, 2)%nat) /\
  (exists Q g',
     approx_range_finder (L := Sym.linalg) (Sym.Input "A" 3 2) 11 4 "none" 0
       = Some (Q, g') /\ shape Q = (3, 3)%nat).
Proof.
  split.
  - exact (approx_range_finder_columns Sym.linalg SymLaws.sym_shape_laws
             (Sym.Input "A" 3 2) 3 2 11 4 "LU" 0 eq_refl ltac:(lia)).
  - exact (approx_range_finder_columns Sym.linalg SymLaws.sym_shape_laws
             (Sym.Input "A" 3 2) 3 2 11 4 "none" 0 eq_refl ltac:(lia)).
Defined.

(** X7.  [randomized_svd] returns as many singular triplets as the
    slice [[:n_components]] keeps of the [min(sketch_size, m, n)]
    triplets of the sketch, for every [n_components] with
    [n_components + n_oversamples >= 0]: [U] has that many columns,
    [s] that many entries and [V] that many columns.  In particular a
    negative [n_components] is not rejected: it drops that many
    triplets from the end. *)
Theorem randomized_svd_triplet_count (L : LinAlg) (SL : ShapeLaws L)
    (M : Mat) (m n : nat) (k p : Z) n_iter norm transpose g :
  shape M = (m, n) -> 0 <= k + p ->
  exists U s V g',
    randomized_svd M k p n_iter norm transpose g = Some (U, s, V, g') /\
    shape U = (m, py_stop k (Nat.min (Z.to_nat (k + p)) (Nat.min m n))) /\
    length (entries s) = py_stop k (Nat.min (Z.to_nat (k + p)) (Nat.min m n)) /\
    shape V = (n, py_stop k (Nat.min (Z.to_nat (k + p)) (Nat.min m n))).
Proof. intros. apply randomized_svd_counts; assumption. Qed.

(** Minus one component with five oversamples on a [6 x 8] matrix:
    three triplets. *)
Lemma randomized_svd_triplet_count_witness :
  exists U s V g',
    randomized_svd (L := Sym.linalg) (Sym.Input "M" 6 8) (-1) 5 (NIter 1) "QR"
      TransposeAuto 0 = Some (U, s, V, g') /\
    shape U = (6, 3)%nat /\ length (entries s) = 3%nat /\ shape V = (8, 3)%nat.
Proof.
  exact (randomized_svd_triplet_count Sym.linalg SymLaws.sym_shape_laws
           (Sym.Input "M" 6 8) 6 8 (-1) 5 (NIter 1) "QR" TransposeAuto 0
           eq_refl ltac:(lia)).
Defined.

(** X8.  Asking for at least [min(m, n)] components (with
    [n_oversamples >= 0]) is not an error: the function returns
    exactly [min(m, n)] triplets, fewer than asked for when
    [n_components > min(m, n)]. *)
Theorem randomized_svd_too_many_components (L : LinAlg) (SL : ShapeLaws L)
    (M : Mat) (m n : nat) (k p : Z) n_iter norm transpose g :
  shape M = (m, n) -> Z.of_nat (Nat.min m n) <= k -> 0 <= p ->
  exists U s V g',
    randomized_svd M k p n_iter norm transpose g = Some (U, s, V, g') /\
    shape U = (m, Nat.min m n) /\
    length (entries s) = Nat.min m n /\
    shape V = (n, Nat.min m n).
Proof.
  intros HM Hk Hp.
  destruct (randomized_svd_counts M m n k p n_iter norm transpose g HM ltac:(lia))
    as (U & s & V & g' & E & SU & Ls & SV).
  assert (py_stop k (Nat.min (Z.to_nat (k + p)) (Nat.min m n)) = Nat.min m n) as Hc.
  { unfold py_stop. destruct (Z.ltb_spec k 0); lia. }
  rewrite Hc in *. exists U, s, V, g'. auto.
Qed.

(** Seven components of a [4 x 3] matrix, with the default ten
    oversamples: three triplets. *)
Lemma randomized_svd_too_many_components_witness :
  exists U s V g',
    randomized_svd (L := Scaled.linalg) (Scaled.full 4 3 Scaled.P1 2) 7 10
      NIterAuto "auto" TransposeAuto 1 = Some (U, s, V, g') /\
    shape U = (4, 3)%nat /\ length (entries s) = 3%nat /\ shape V = (3, 3)%nat.
Proof.
  exact (randomized_svd_too_many_components Scaled.linalg ScaledLaws.scaled_shape_laws
           (Scaled.full 4 3 Scaled.P1 2) 4 3 7 10 NIterAuto "auto" TransposeAuto 1
           eq_refl ltac:(cbn; lia) ltac:(lia)).
Defined.

(** ** The basis as a projector *)

Section Projector.
Context {L : LinAlg} {SL : ShapeLaws L} {ML : MatrixLaws L}.

(** [Q^H * (Q * B) = B] when the columns of [Q] are orthonormal. *)
Lemma orthonormal_cols_cancel (Q B QB : Mat) :
  orthonormal_cols Q -> matmul Q B = Some QB -> matmul (getH Q) QB = Some B.
Proof.
  unfold orthonormal_cols. intros OQ E.
  pose proof (matmul_Some _ _ _ E) as [Hdim _].
  rewrite <- (matmul_assoc _ _ _ _ _ OQ E), Hdim. apply matmul_eye_l.
Qed.

End Projector.

(** With the ['QR'] normalizer the iterate has orthonormal columns
    after every round of the loop, whatever it was before the round. *)
Theorem qr_round_orthonormal (L : LinAlg) (ML : MatrixLaws L) (A Q Q' : Mat) :
  power_iteration A "QR" Q = Some Q' -> orthonormal_cols Q'.
Proof.
  unfold power_iteration. cbn.
  destruct (matmul A Q) as [AQ|]; [|discriminate]. cbn.
  destruct (matmul (getH A) (qr AQ)) as [AHQ|]; [|discriminate]. cbn.
  intros [= <-]. apply qr_orthonormal.
Qed.

(** One QR round on a [5 x 3] scaled partial identity. *)
Lemma qr_round_orthonormal_witness :
  orthonormal_cols (L := Scaled.linalg) (Scaled.full 3 2 Scaled.P1 1).
Proof.
  apply (qr_round_orthonormal Scaled.linalg ScaledLaws.scaled_matrix_laws
           (Scaled.full 5 3 Scaled.Pi 2) (Scaled.full 3 2 Scaled.Pm1 4)).
  vm_compute. reflexivity.
Defined.

(** X9.  Whenever [approx_range_finder] returns a basis [Q], for any
    size, number of iterations and normalizer, [Q] has orthonormal
    columns, and [Q * Q^H] acts as a projector on [A]: with
    [B = Q^H * A] and [P = Q * B], projecting again changes nothing,
    [Q^H * P = B] and [Q * (Q^H * P) = P]. *)
Theorem range_finder_projector (L : LinAlg) (SL : ShapeLaws L) (ML : MatrixLaws L)
    (A : Mat) (size n_iter : Z) norm g Q g' :
  approx_range_finder A size n_iter norm g = Some (Q, g') ->
  orthonormal_cols Q /\
  exists B P,
    matmul (getH Q) A = Some B /\ matmul Q B = Some P /\
    matmul (getH Q) P = Some B /\ shape P = shape A.
Proof.
  intros E.
  pose proof E as E'.
  apply approx_range_finder_Some_inv in E' as (Q0 & Qn & X & _ & EX & ->).
  pose proof (qr_orthonormal X) as OQ. split; [exact OQ|].
  pose proof (matmul_Some _ _ _ EX) as [_ SX].
  assert (rows (qr X) = rows A) as RQ.
  { unfold rows at 1. rewrite qr_shape. unfold rows at 1. rewrite SX. reflexivity. }
  destruct (matmul_is_Some (getH (qr X)) A) as [B EB].
  { destruct (getH_rows_cols (qr X)) as [_ ->]. exact RQ. }
  pose proof (matmul_Some _ _ _ EB) as [_ SB].
  destruct (matmul_is_Some (qr X) B) as [P EP].
  { unfold rows. rewrite SB. cbn. destruct (getH_rows_cols (qr X)) as [-> _].
    reflexivity. }
  exists B, P. split; [exact EB|]. split; [exact EP|].
  split; [exact (orthonormal_cols_cancel _ _ _ OQ EP)|].
  pose proof (matmul_Some _ _ _ EP) as [_ ->].
  unfold cols at 1. rewrite SB. cbn. rewrite RQ.
  unfold rows, cols. destruct (shape A); reflexivity.
Qed.

(** The basis of a [5 x 3] scaled partial identity for a sketch of
    size 7, above [min(m, n)]. *)
Lemma range_finder_projector_witness :
  orthonormal_cols (L := Scaled.linalg) (Scaled.full 5 3 Scaled.P1 1).
Proof.
  apply (range_finder_projector Scaled.linalg ScaledLaws.scaled_shape_laws
           ScaledLaws.scaled_matrix_laws (Scaled.full 5 3 Scaled.Pi 2) 7 3 "LU" 9
           (Scaled.full 5 3 Scaled.P1 1) (Scaled.next 9)).
  vm_compute. reflexivity.
Defined.

(** X10.  The singular vectors that [randomized_svd] lifts lie in the
    range of the basis [Q] of the matrix worked on ([M], or [M.T] when
    transposing): for the lifted factor [F], which is [U] without
    transposition and [conj(V)] with it, [Q * (Q^H * F) = F]. *)
Theorem lifted_vectors_in_range (L : LinAlg) (SL : ShapeLaws L) (ML : MatrixLaws L)
    (M : Mat) (k p : Z) n_iter norm transpose g U s V g' :
  randomized_svd M k p n_iter norm transpose g = Some (U, s, V, g') ->
  exists it Q C,
    approx_range_finder
      (if match transpose with
          | TransposeAuto => (rows M <? cols M)%nat
          | Transpose b => b
          end then getT M else M) (k + p) it norm g = Some (Q, g') /\
    matmul (getH Q)
      (if match transpose with
          | TransposeAuto => (rows M <? cols M)%nat
          | Transpose b => b
          end then conj V else U) = Some C /\
    matmul Q C =
      Some (if match transpose with
               | TransposeAuto => (rows M <? cols M)%nat
               | Transpose b => b
               end then conj V else U).
Proof.
  intros E. apply randomized_svd_Some_inv in E as (it & Q & B & Ul & EQ & EB & EU & EOut).
  set (b := match transpose with TransposeAuto => _ | Transpose b => b end) in *.
  assert ((if b then conj V else U) = take_cols k Ul) as ->.
  { destruct b; injection EOut as -> -> ->; [apply conj_conj | reflexivity]. }
  pose proof EQ as EQ'.
  apply approx_range_finder_Some_inv in EQ' as (Q0 & Qn & X & _ & _ & ->).
  pose proof (qr_orthonormal X) as OQ.
  pose proof (take_cols_matmul k _ _ _ EU) as EUk.
  exists it, (qr X), (take_cols k (svd B).1.1).
  split; [exact EQ|]. split; [|exact EUk].
  exact (orthonormal_cols_cancel _ _ _ OQ EUk).
Qed.

(** Two components of the [3 x 5] scaled partial identity [2i * E],
    which the run transposes. *)
Lemma lifted_vectors_in_range_witness :
  exists Q C : Scaled.smat,
    Scaled.matmul (Scaled.getH Q) (Scaled.conj (Scaled.SMat 2 3 0 Scaled.Pmi 1))
      = Some C /\
    Scaled.matmul Q C = Some (Scaled.conj (Scaled.SMat 2 3 0 Scaled.Pmi 1)).
Proof.
  destruct (lifted_vectors_in_range Scaled.linalg ScaledLaws.scaled_shape_laws
              ScaledLaws.scaled_matrix_laws
              (Scaled.full 3 5 Scaled.Pi 2) 2 1 NIterAuto "auto" TransposeAuto 42
              (Scaled.SMat 2 1 0 Scaled.P1 1) (Scaled.SVec 2 0 2)
              (Scaled.SMat 2 3 0 Scaled.Pmi 1) (Scaled.next 42))
    as (it & Q & C & _ & E1 & E2).
  - vm_compute. reflexivity.
  - exists Q, C. split; assumption.
Defined.

(** ** Results never share a buffer with what existed before the call *)

Section Freshness.
Context {L : LinAlg}.

Local Open Scope nat_scope.

Lemma grows_ret {T} (x : T) : grows (py_ret x).
Proof. intros w. reflexivity. Qed.

Lemma grows_bind {T U} (c : Py T) (f : T -> Py U) :
  grows c -> (forall x, grows (f x)) -> grows (py_bind c f).
Proof.
  intros Hc Hf w. unfold py_bind. specialize (Hc w).
  destruct (c w) as [w1 [x|]]; cbn [fst] in *; [|exact Hc].
  etransitivity; [exact Hc | apply Hf].
Qed.

Lemma grows_read a : grows (read a).
Proof. intros w. reflexivity. Qed.

Lemma grows_new_array X : grows (new_array X).
Proof. intros w. cbn. rewrite length_app. lia. Qed.

Lemma grows_new_array1 s : grows (new_array1 s).
Proof. intros w. cbn. rewrite length_app. lia. Qed.

Lemma grows_matmul a b : grows (py_matmul a b).
Proof.
  unfold py_matmul. apply grows_bind; [apply grows_read|]. intros X.
  apply grows_bind; [apply grows_read|]. intros Y.
  destruct (matmul X Y); [apply grows_new_array|]. intros w. reflexivity.
Qed.

Lemma grows_lu a : grows (py_lu a).
Proof.
  unfold py_lu. apply grows_bind; [apply grows_read|]. intros X. apply grows_new_array.
Qed.

Lemma grows_qr a : grows (py_qr a).
Proof.
  unfold py_qr. apply grows_bind; [apply grows_read|]. intros X. apply grows_new_array.
Qed.

Lemma grows_svd a : grows (py_svd a).
Proof.
  unfold py_svd. apply grows_bind; [apply grows_read|]. intros X.
  destruct (svd X) as [[U s] Vh].
  apply grows_bind; [apply grows_new_array|]. intros U0.
  apply grows_bind; [apply grows_new_array1|]. intros s0.
  apply grows_bind; [apply grows_new_array|]. intros V0. apply grows_ret.
Qed.

Lemma grows_randn rgen r c : grows (py_randn rgen r c).
Proof.
  intros w. unfold py_randn.
  destruct (randn (generators w rgen) r c) as [[Q g']|]; [|reflexivity].
  cbn. rewrite length_app. lia.
Qed.

Lemma grows_shape a : grows (py_shape a).
Proof.
  unfold py_shape. apply grows_bind; [apply grows_read|]. intros X. apply grows_ret.
Qed.

Lemma grows_power_iteration A norm Q : grows (power_iteration_py A norm Q).
Proof.
  unfold power_iteration_py, py_H.
  destruct (String.eqb norm "none");
    [|destruct (String.eqb norm "LU"); [|destruct (String.eqb norm "QR")]];
    repeat first
      [ apply grows_ret | apply grows_matmul | apply grows_lu | apply grows_qr
      | apply grows_bind; [|intros ?] ].
Qed.

Lemma grows_for_range n body :
  (forall Q, grows (body Q)) -> forall Q, grows (for_range_py n body Q).
Proof.
  intros Hb. induction n as [|n IH]; intros Q; cbn [for_range_py].
  - apply grows_ret.
  - apply grows_bind; [apply Hb | exact IH].
Qed.

Lemma fresh_ret {T} (bases : T -> list nat) n (t : T) :
  created_after n (bases t) -> fresh_out bases n (py_ret t).
Proof. intros H w t' _ [= <-]. exact H. Qed.

(** The continuation returns fresh results whatever it is given. *)
Lemma fresh_bind {T U} (bases : U -> list nat) n (c : Py T) (f : T -> Py U) :
  grows c -> (forall x, fresh_out bases n (f x)) -> fresh_out bases n (py_bind c f).
Proof.
  intros Hc Hf w t Hn. unfold py_bind. specialize (Hc w).
  destruct (c w) as [w1 [x|]]; cbn [fst snd] in *; [|discriminate].
  apply Hf. lia.
Qed.

(** The continuation returns fresh results when it is given one. *)
Lemma fresh_bind_dep {T U} (b1 : T -> list nat) (b2 : U -> list nat) n
    (c : Py T) (f : T -> Py U) :
  grows c -> fresh_out b1 n c ->
  (forall x, created_after n (b1 x) -> fresh_out b2 n (f x)) ->
  fresh_out b2 n (py_bind c f).
Proof.
  intros Hg Hc Hf w t Hn. unfold py_bind.
  specialize (Hg w). specialize (Hc w).
  destruct (c w) as [w1 [x|]]; cbn [fst snd] in *; [|discriminate].
  apply Hf; [apply Hc; [exact Hn | reflexivity] | lia].
Qed.

Lemma fresh_new_array n X : fresh_out array_bases n (new_array X).
Proof.
  intros w t Hn [= <-]. constructor; [exact Hn | constructor].
Qed.

Lemma fresh_qr n a : fresh_out array_bases n (py_qr a).
Proof.
  unfold py_qr. apply fresh_bind; [apply grows_read|]. intros X. apply fresh_new_array.
Qed.

Lemma fresh_matmul n a b : fresh_out array_bases n (py_matmul a b).
Proof.
  unfold py_matmul. apply fresh_bind; [apply grows_read|]. intros X.
  apply fresh_bind; [apply grows_read|]. intros Y.
  destruct (matmul X Y); [apply fresh_new_array|]. intros w t _ [=].
Qed.

Lemma fresh_svd n a : fresh_out triple_bases n (py_svd a).
Proof.
  unfold py_svd. apply fresh_bind; [apply grows_read|]. intros X.
  destruct (svd X) as [[U s] Vh].
  intros w t Hn. unfold py_bind, new_array, new_array1, py_ret. cbn.
  intros [= <-]. unfold triple_bases; cbn.
  rewrite !length_app. cbn.
  repeat constructor; lia.
Qed.

Lemma fresh_approx_range_finder n A size n_iter norm rgen :
  fresh_out array_bases n (approx_range_finder_py A size n_iter norm rgen).
Proof.
  unfold approx_range_finder_py, py_asmatrix.
  apply fresh_bind; [apply grows_ret|]. intros A0.
  apply fresh_bind; [apply grows_shape|]. intros sh.
  apply fresh_bind; [apply grows_randn|]. intros Q0.
  apply fresh_bind; [apply grows_for_range; intros; apply grows_power_iteration|].
  intros Qn.
  apply fresh_bind; [apply grows_matmul|]. intros AQ.
  apply (fresh_bind_dep array_bases); [apply grows_qr | apply fresh_qr|].
  intros Q HQ. apply fresh_ret. exact HQ.
Qed.

Lemma grows_approx_range_finder A size n_iter norm rgen :
  grows (approx_range_finder_py A size n_iter norm rgen).
Proof.
  unfold approx_range_finder_py, py_asmatrix.
  apply grows_bind; [apply grows_ret|]. intros A0.
  apply grows_bind; [apply grows_shape|]. intros sh.
  apply grows_bind; [apply grows_randn|]. intros Q0.
  apply grows_bind; [apply grows_for_range; intros; apply grows_power_iteration|].
  intros Qn.
  apply grows_bind; [apply grows_matmul|]. intros AQ.
  apply grows_bind; [apply grows_qr|]. intros Q. apply grows_ret.
Qed.

Lemma fresh_randomized_svd n M k p n_iter norm transpose rgen :
  fresh_out triple_bases n (randomized_svd_py M k p n_iter norm transpose rgen).
Proof.
  unfold randomized_svd_py, py_asmatrix.
  apply fresh_bind; [apply grows_ret|]. intros M0.
  apply fresh_bind; [apply grows_shape|]. intros sh.
  set (b := match transpose with TransposeAuto => _ | Transpose b => b end).
  apply fresh_bind; [destruct b; apply grows_ret|]. intros M'.
  apply fresh_bind; [apply grows_approx_range_finder|]. intros Q.
  apply fresh_bind; [apply grows_ret|]. intros QH.
  apply fresh_bind; [apply grows_matmul|]. intros B.
  apply (fresh_bind_dep triple_bases); [apply grows_svd | apply fresh_svd|].
  intros [[Uhat s] V] Ht.
  apply (fresh_bind_dep array_bases); [apply grows_matmul | apply fresh_matmul|].
  intros U HU.
  unfold triple_bases, array_bases, created_after in *; cbn [fst snd] in *.
  apply Forall_cons in HU as [HU _].
  apply Forall_cons in Ht as [_ Ht]. apply Forall_cons in Ht as [Hs Ht].
  apply Forall_cons in Ht as [HV _].
  destruct b;
    unfold py_take_rows, py_take_cols, py_take_vec, py_T, py_H, py_conj;
    intros w t _ [= <-]; cbn; repeat constructor; assumption.
Qed.

End Freshness.

(** X11.  The basis that [approx_range_finder] returns is on a buffer
    that the call itself has created: it shares no buffer with any
    array that existed before the call, the input matrix included, so
    that writing to the result cannot change the input. *)
Theorem range_finder_result_is_new (L : LinAlg) (w : World) (A : array)
    (size n_iter : Z) norm (rgen : option nat) (Q : array) :
  snd (approx_range_finder_py A size n_iter norm rgen w) = Some Q ->
  (length (buffers w) <= base Q)%nat /\
  (forall X, holds w A X -> base Q <> base A).
Proof.
  intros E.
  pose proof (fresh_approx_range_finder (length (buffers w)) A size n_iter norm rgen
                w Q (Nat.le_refl _) E) as HQ.
  unfold created_after, array_bases in HQ. apply Forall_cons in HQ as [HQ _].
  split; [exact HQ|].
  intros X HX. unfold holds, read in HX; cbn in HX.
  destruct (buffers w !! base A) as [c|] eqn:EA; [|discriminate].
  apply lookup_lt_Some in EA. lia.
Qed.

(** A run on a world with two buffers. *)
Lemma range_finder_result_is_new_witness :
  exists Q,
    snd (approx_range_finder_py (sym_array 1) 2 1 "LU" None
           (sym_world (fun _ => 0) [Sym.Input "B" 1 1; Sym.Input "A" 3 2])) = Some Q /\
    (2 <= base Q)%nat.
Proof.
  destruct (snd (approx_range_finder_py (sym_array 1) 2 1 "LU" None
                   (sym_world (fun _ => 0) [Sym.Input "B" 1 1; Sym.Input "A" 3 2])))
    as [Q|] eqn:E.
  - exists Q. split; [reflexivity|].
    apply (range_finder_result_is_new Sym.linalg _ _ _ _ _ _ _ E).
  - vm_compute in E. discriminate.
Defined.

(** X12.  The three arrays that [randomized_svd] returns are views on
    buffers that the call itself has created: none of [U], [s], [V]
    shares a buffer with an array that existed before the call, the
    input matrix included, although the function works on views of the
    input ([np.asmatrix(M)], [M.T]). *)
Theorem randomized_svd_results_are_new (L : LinAlg) (w : World) (M : array)
    (k p : Z) n_iter norm transpose (rgen : option nat) (U : array) (s : array1)
    (V : array) :
  snd (randomized_svd_py M k p n_iter norm transpose rgen w) = Some (U, s, V) ->
  (length (buffers w) <= base U)%nat /\
  (length (buffers w) <= base1 s)%nat /\
  (length (buffers w) <= base V)%nat /\
  (forall X, holds w M X -> base U <> base M /\ base V <> base M).
Proof.
  intros E.
  pose proof (fresh_randomized_svd (length (buffers w)) M k p n_iter norm transpose
                rgen w (U, s, V) (Nat.le_refl _) E) as H.
  unfold created_after, triple_bases in H; cbn [fst snd] in H.
  apply Forall_cons in H as [HU H]. apply Forall_cons in H as [Hs H].
  apply Forall_cons in H as [HV _].
  split; [exact HU|]. split; [exact Hs|]. split; [exact HV|].
  intros X HX. unfold holds, read in HX; cbn in HX.
  destruct (buffers w !! base M) as [c|] eqn:EM; [|discriminate].
  apply lookup_lt_Some in EM. lia.
Qed.

(** A transposed run on a world with one buffer. *)
Lemma randomized_svd_results_are_new_witness :
  exists U s V,
    snd (randomized_svd_py (sym_array 0) 1 1 (NIter 0) "none" TransposeAuto None
           (sym_world (fun _ => 0) [Sym.Input "M" 2 3])) = Some (U, s, V) /\
    (1 <= base U)%nat /\ (1 <= base1 s)%nat /\ (1 <= base V)%nat.
Proof.
  destruct (snd (randomized_svd_py (sym_array 0) 1 1 (NIter 0) "none" TransposeAuto None
                   (sym_world (fun _ => 0) [Sym.Input "M" 2 3])))
    as [[[U s] V]|] eqn:E.
  - exists U, s, V. split; [reflexivity|].
    destruct (randomized_svd_results_are_new Sym.linalg _ _ _ _ _ _ _ _ _ _ _ E)
      as (HU & Hs & HV & _).
    repeat split; assumption.
  - vm_compute in E. discriminate.
Defined.

(** X13.  A call that the draw rejects changes nothing: with a negative
    [size] (for [randomized_svd], a negative
    [n_components + n_oversamples]) the function raises and leaves
    every buffer and every generator, the one it was given included,
    as they were. *)
Theorem rejected_call_changes_nothing (L : LinAlg) (SL : ShapeLaws L)
    (w : World) (A : array) (Am : Mat) (size n_iter : Z) (k p : Z) it norm
    transpose (rgen : option nat) :
  holds w A Am ->
  (size < 0 -> approx_range_finder_py A size n_iter norm rgen w = (w, None)) /\
  (k + p < 0 -> randomized_svd_py A k p it norm transpose rgen w = (w, None)).
Proof.
  intros HA.
  assert (forall B Bm sz ni r, holds w B Bm -> sz < 0 ->
            approx_range_finder_py B sz ni norm r w = (w, None)) as Harf.
  { intros B Bm sz ni r HB Hs.
    unfold approx_range_finder_py, py_asmatrix, py_shape.
    unfold py_bind at 1. unfold py_ret at 1.
    unfold py_bind at 1. unfold py_bind at 1. rewrite (read_holds _ _ _ HB).
    unfold py_ret at 1. unfold py_bind at 1. unfold py_randn.
    destruct (randn _ _ sz) as [[Q g']|] eqn:E0; [|reflexivity].
    apply randn_Some in E0 as (_ & Hc & _). lia. }
  split; [apply (Harf A Am); exact HA|].
  intros Hkp.
  unfold randomized_svd_py, py_asmatrix, py_shape.
  unfold py_bind at 1. unfold py_ret at 1.
  unfold py_bind at 1. unfold py_bind at 1. rewrite (read_holds _ _ _ HA).
  unfold py_ret at 1.
  set (b := match transpose with TransposeAuto => _ | Transpose b => b end).
  set (n := match it with NIterAuto => _ | NIter n => n end).
  unfold py_bind at 1.
  assert (exists M' M'm, (if b then py_T A else py_ret A) w = (w, Some M') /\
                         holds w M' M'm) as (M' & M'm & -> & HM').
  { destruct b.
    - eexists _, _. split; [reflexivity|]. apply (holds_view getT). exact HA.
    - exists A, Am. split; [reflexivity | exact HA]. }
  unfold py_bind at 1. rewrite (Harf M' M'm _ _ _ HM' Hkp). reflexivity.
Qed.

(** A negative size with the default generator, in a symbolic world. *)
Lemma rejected_call_changes_nothing_witness :
  approx_range_finder_py (sym_array 0) (-2) 4 "auto" None
    (sym_world (fun _ => 7) [Sym.Input "A" 3 2])
  = (sym_world (fun _ => 7) [Sym.Input "A" 3 2], None).
Proof.
  apply (rejected_call_changes_nothing Sym.linalg SymLaws.sym_shape_laws
           (sym_world (fun _ => 7) [Sym.Input "A" 3 2]) (sym_array 0)
           (Sym.Input "A" 3 2) (-2) 4 0 0 NIterAuto "auto" TransposeAuto None).
  - reflexivity.
  - lia.
Defined.

(** ** What a run costs *)

Section Calls.

Local Open Scope nat_scope.

Lemma sym_matmul_Some (X Y Z : Sym.mterm) :
  Sym.matmul X Y = Some Z -> Z = Sym.Mul X Y.
Proof.
  unfold Sym.matmul. destruct (_ =? _); [|discriminate]. intros [= <-]. reflexivity.
Qed.

(** One round adds the calls of its normalizer to those that produced
    the iterate. *)
Lemma power_iteration_calls r name m n norm (Q Q' : Sym.mterm) :
  power_iteration (L := Sym.linalg) (Sym.Input name m n) norm Q = Some Q' ->
  sym_calls r Q' = sym_calls r Q + round_calls r norm.
Proof.
  unfold power_iteration, round_calls. cbn [matmul getH lu qr Sym.linalg].
  destruct (String.eqb norm "none");
    [|destruct (String.eqb norm "LU"); [|destruct (String.eqb norm "QR")]].
  - destruct (Sym.matmul _ Q) as [Q1|] eqn:E1; [|discriminate]. cbn.
    intros E2. apply sym_matmul_Some in E1 as ->. apply sym_matmul_Some in E2 as ->.
    cbn. destruct r; cbn; lia.
  - destruct (Sym.matmul _ Q) as [Q1|] eqn:E1; [|discriminate]. cbn.
    destruct (Sym.matmul _ (Sym.Lu Q1)) as [Q2|] eqn:E2; [|discriminate]. cbn.
    intros [= <-]. apply sym_matmul_Some in E1 as ->. apply sym_matmul_Some in E2 as ->.
    cbn. destruct r; cbn; lia.
  - destruct (Sym.matmul _ Q) as [Q1|] eqn:E1; [|discriminate]. cbn.
    destruct (Sym.matmul _ (Sym.Qr Q1)) as [Q2|] eqn:E2; [|discriminate]. cbn.
    intros [= <-]. apply sym_matmul_Some in E1 as ->. apply sym_matmul_Some in E2 as ->.
    cbn. destruct r; cbn; lia.
  - intros [= <-]. lia.
Qed.

Lemma for_range_calls r name m n norm k : forall (Q Q' : Sym.mterm),
  for_range (L := Sym.linalg) k
    (power_iteration (L := Sym.linalg) (Sym.Input name m n) norm) Q = Some Q' ->
  sym_calls r Q' = sym_calls r Q + k * round_calls r norm.
Proof.
  induction k as [|k IH]; intros Q Q'; cbn [for_range].
  - intros [= <-]. lia.
  - destruct (power_iteration (L := Sym.linalg) (Sym.Input name m n) norm Q)
      as [Q1|] eqn:E1; [|discriminate]. cbn.
    intros E. apply IH in E. apply (power_iteration_calls r) in E1. lia.
Qed.

End Calls.

(** X14.  The calls that a run of [approx_range_finder] makes to the
    collaborators, counted in the symbolic result: each of the
    [n_iter] rounds costs two matrix products, and two LU or two QR
    factorizations when normalized by ['LU'] or ['QR']; the end costs
    one more product and one QR factorization.  An unknown normalizer
    costs the end only. *)
Theorem approx_range_finder_calls (r : routine) (name : string) (m n : nat)
    (size n_iter : Z) (norm : string) (g : Z) (Q : Sym.mterm) (g' : Z) :
  norm <> "auto"%string ->
  approx_range_finder (L := Sym.linalg) (Sym.Input name m n) size n_iter norm g
    = Some (Q, g') ->
  sym_calls r Q = (range_len n_iter * round_calls r norm + final_calls r)%nat.
Proof.
  intros Hn. rewrite approx_range_finder_unfold by exact Hn.
  cbn [randn matmul qr Sym.linalg].
  destruct (Sym.randn g _ size) as [[Q0 g1]|] eqn:E0; [|discriminate]. cbn.
  destruct (for_range (L := Sym.linalg) (range_len n_iter)
              (power_iteration (L := Sym.linalg) (Sym.Input name m n) norm) Q0)
    as [Qn|] eqn:En; [|discriminate]. cbn.
  destruct (Sym.matmul (Sym.Input name m n) Qn) as [X|] eqn:EX; [|discriminate]. cbn.
  intros [= <- <-].
  apply sym_matmul_Some in EX as ->.
  apply (for_range_calls r) in En.
  assert (sym_calls r Q0 = 0%nat) as H0.
  { unfold Sym.randn in E0. destruct (_ && _); [|discriminate].
    injection E0 as <- _. reflexivity. }
  unfold final_calls. cbn. destruct r; cbn; lia.
Qed.

(** Seven LU rounds on a symbolic [6 x 4] matrix: fifteen products,
    fourteen LU factorizations and one QR factorization. *)
Lemma approx_range_finder_calls_witness :
  exists Q g',
    approx_range_finder (L := Sym.linalg) (Sym.Input "A" 6 4) 3 7 "LU" 0
      = Some (Q, g') /\
    sym_calls Product Q = 15%nat /\ sym_calls LUFactor Q = 14%nat /\
    sym_calls QRFactor Q = 1%nat.
Proof.
  destruct (approx_range_finder (L := Sym.linalg) (Sym.Input "A" 6 4) 3 7 "LU" 0)
    as [[Q g']|] eqn:E; [|vm_compute in E; discriminate].
  exists Q, g'. split; [reflexivity|].
  repeat split.
  - apply (approx_range_finder_calls Product "A" 6 4 3 7 "LU" 0 Q g');
      [discriminate | exact E].
  - apply (approx_range_finder_calls LUFactor "A" 6 4 3 7 "LU" 0 Q g');
      [discriminate | exact E].
  - apply (approx_range_finder_calls QRFactor "A" 6 4 3 7 "LU" 0 Q g');
      [discriminate | exact E].
Defined.

(** ** Without truncation *)

Module ScaledSlices.
Import Scaled.

Lemma scaled_slice_laws : SliceLaws linalg.
Proof.
  constructor; cbn -[Nat.min py_stop]; unfold rows, cols; cbn -[Nat.min py_stop].
  - intros k [r a b u g] Hk. unfold take_rows, shape, nrows, ncols in *;
      cbn [rk xrows xcols ph mg fst] in *.
    assert (py_stop k (r + a) = (r + a)%nat) as ->
      by (unfold py_stop; destruct (Z.ltb_spec k 0); lia).
    apply ScaledLaws.smat_eq; try reflexivity; lia.
  - intros k [r a b u g] Hk. unfold take_cols, shape, nrows, ncols in *;
      cbn [rk xrows xcols ph mg snd] in *.
    assert (py_stop k (r + b) = (r + b)%nat) as ->
      by (unfold py_stop; destruct (Z.ltb_spec k 0); lia).
    apply ScaledLaws.smat_eq; try reflexivity; lia.
  - intros k [r z a] Hk. unfold take_vec, entries in *; cbn [vrk vzeros vmg] in *.
    rewrite length_app, !repeat_length in Hk.
    assert (py_stop k (r + z) = (r + z)%nat) as ->
      by (unfold py_stop; destruct (Z.ltb_spec k 0); lia).
    f_equal; lia.
Qed.

End ScaledSlices.

(** X15.  When [n_components] is at least the number
    [min(sketch_size, m, n)] of singular triplets of the sketch (as in
    a full-rank request), nothing is truncated: the triple returned
    stands for the projection of the matrix on the range of the basis,
    [U * diag(s) * V^H = Q * Q^H * M] (computed on [M.T] and
    transposed back when the run transposes), and the product has the
    shape of [M]. *)
Theorem full_request_reconstructs_projection (L : LinAlg) (SL : ShapeLaws L)
    (ML : MatrixLaws L) (XL : SliceLaws L)
    (M : Mat) (m n : nat) (k p : Z) n_iter norm transpose g :
  shape M = (m, n) -> 0 <= k + p ->
  Z.of_nat (Nat.min (Z.to_nat (k + p)) (Nat.min m n)) <= k ->
  exists U s V g' it Q B P,
    randomized_svd M k p n_iter norm transpose g = Some (U, s, V, g') /\
    approx_range_finder
      (if match transpose with
          | TransposeAuto => (m <? n)%nat
          | Transpose b => b
          end then getT M else M) (k + p) it norm g = Some (Q, g') /\
    matmul (getH Q)
      (if match transpose with
          | TransposeAuto => (m <? n)%nat
          | Transpose b => b
          end then getT M else M) = Some B /\
    matmul Q B = Some P /\
    reconstruct U s V =
      Some (if match transpose with
               | TransposeAuto => (m <? n)%nat
               | Transpose b => b
               end then getT P else P) /\
    shape (if match transpose with
              | TransposeAuto => (m <? n)%nat
              | Transpose b => b
              end then getT P else P) = (m, n).
Proof.
  intros HM Hkp Hk.
  rewrite randomized_svd_resolve.
  pose proof HM as HM0. apply shape_rows_cols in HM0 as [Hr Hc]. rewrite Hr, Hc.
  set (b := match transpose with TransposeAuto => _ | Transpose b => b end).
  set (it := match n_iter with NIterAuto => _ | NIter x => x end).
  rewrite randomized_svd_unfold. cbn zeta.
  set (M' := if b then getT M else M).
  set (m' := if b then n else m). set (n' := if b then m else n).
  assert (shape M' = (m', n')) as HM'.
  { unfold M', m', n'. destruct b; [rewrite getT_shape, Hr, Hc|]; auto. }
  destruct (sketch_shapes M' m' n' (k + p) it norm g HM' Hkp)
    as (Q & g' & B & Ul & w & EQ & EB & EU & _ & Hw & SQ & SB & SUh & Ls & SVh & SUl).
  rewrite EQ; cbn. rewrite EB; cbn. rewrite EU; cbn.
  assert (Nat.min w n' = Nat.min (Z.to_nat (k + p)) (Nat.min m n)) as HK
    by (unfold m', n' in *; destruct b; lia).
  destruct (reconstruct_lifted _ _ _ k _ _ _ SQ SB EU) as (R & W & ER & EW & Rec & RecT).
  assert (R = B) as ->.
  { unfold truncated_svd in ER.
    destruct (svd B) as [[Uh s] Vh] eqn:Esvd. cbn [fst snd] in *.
    rewrite take_cols_all, take_vec_all, take_rows_all in ER.
    - pose proof (svd_product B Uh s Vh Esvd) as HP. congruence.
    - unfold rows. rewrite SVh. cbn. lia.
    - rewrite Ls. lia.
    - unfold cols. rewrite SUh. cbn. lia. }
  pose proof (matmul_Some _ _ _ EW) as [_ SW].
  assert (shape W = (m', n')) as SW'.
  { rewrite SW. apply shape_rows_cols in SQ as [-> _].
    apply shape_rows_cols in SB as [_ ->]. reflexivity. }
  destruct b; cbn [m' n'] in *; eexists _, _, _, g', it, Q, B, W;
    (split; [reflexivity|]); repeat split; try assumption.
  rewrite getT_shape. apply shape_rows_cols in SW' as [-> ->]. reflexivity.
Qed.

(** All three triplets of a [4 x 3] scaled partial identity, with two
    oversamples. *)
Lemma full_request_reconstructs_projection_witness :
  exists U s V g',
    randomized_svd (L := Scaled.linalg) (Scaled.full 4 3 Scaled.Pi 2) 3 2
      NIterAuto "auto" TransposeAuto 5 = Some (U, s, V, g') /\
    exists P, reconstruct U s V = Some P /\ shape P = (4, 3)%nat.
Proof.
  destruct (full_request_reconstructs_projection Scaled.linalg
              ScaledLaws.scaled_shape_laws ScaledLaws.scaled_matrix_laws
              ScaledSlices.scaled_slice_laws
              (Scaled.full 4 3 Scaled.Pi 2) 4 3 3 2 NIterAuto "auto" TransposeAuto 5)
    as (U & s & V & g' & it & Q & B & P & E & _ & _ & _ & Rec & SP).
  - reflexivity.
  - lia.
  - cbn. lia.
  - exists U, s, V, g'. split; [exact E|]. eexists. split; [exact Rec | exact SP].
Defined.
